(** * magic-functions: edge schematics, arrow drawing and the basic graph store

    A shallow embedding of
    - [src/useGraph/schematics/edge.ts]  ([getEdgeSchematic]),
    - [src/shapes/draw.ts]               (the canvas drawers),
    - the basic graph composable         ([useGraph]: [addNode], [removeNode],
                                          [drawEdge], [draw]).

    JavaScript numbers are idealised as real numbers: [Math.cos], [Math.sin]
    and [Math.PI] are the functions and the constant of the Standard Library's
    reals, and [Math.atan2] is the two-argument arctangent built from [atan].
    Rounding, NaN, infinities and the sign of zero are outside the model. *)

From Stdlib Require Import Reals Lra Lia ZArith List String Bool.
From Stdlib Require Import DecimalString FinFun.
Import ListNotations.

Open Scope R_scope.

(* ================================================================== *)
(** * Definitions                                                      *)
(* ================================================================== *)

(** ** The [Math] builtins the sources call *)

Module JsMath.

(** [Math.atan2(y, x)]: the angle of the vector [(x, y)], in [(-PI, PI]];
    [Math.atan2(0, 0)] is [0]. *)
Definition atan2 (y x : R) : R :=
  if Rlt_dec 0 x then atan (y / x)
  else if Rlt_dec x 0 then
    if Rle_dec 0 y then atan (y / x) + PI else atan (y / x) - PI
  else if Rlt_dec 0 y then PI / 2
  else if Rlt_dec y 0 then - (PI / 2)
  else 0.

(** The JavaScript [a || b] on numbers: [a] unless it is falsy, that is [0]
    in the idealisation. *)
Definition number_or (a : option R) (b : R) : R :=
  match a with
  | Some v => if Req_dec_T v 0 then b else v
  | None => b
  end.

End JsMath.


(** ** Shapes ([shapes/types], as the drawers and the schematic use them) *)

Module Shapes.

Record Point := mkPoint { x : R; y : R }.

(** A [color] left out is [None]; the drawers then fall back on ['black']. *)
Record Line := mkLine {
  start : Point;
  end_ : Point;
  color : option string;
  width : R
}.

Record Triangle := mkTriangle {
  point1 : Point;
  point2 : Point;
  point3 : Point;
  tcolor : option string
}.

(** The edge schematic's straight form: [{ start, end, color, width }]. *)
Definition Arrow := Line.

Record UTurnArrow := mkUTurnArrow {
  spacing : R;
  center : Point;
  upDistance : R;
  downDistance : R;
  angle : R;
  lineWidth : R;
  ucolor : option string
}.

(** Euclidean distance between two points. *)
Definition dist (a b : Point) : R :=
  sqrt ((x b - x a) * (x b - x a) + (y b - y a) * (y b - y a)).

(** The unit vector from [a] towards [b], for two points that differ. *)
Definition dirx (a b : Point) : R := (x b - x a) / dist a b.
Definition diry (a b : Point) : R := (y b - y a) / dist a b.

(** The point of the line through [start] and [end] at parameter [s]
    ([start] at 0, [end] at 1). *)
Definition along (l : Line) (s : R) : Point :=
  {| x := x (start l) + s * (x (end_ l) - x (start l));
     y := y (start l) + s * (y (end_ l) - y (start l)) |}.

End Shapes.

(** ** The drawing surface

    A [CanvasRenderingContext2D] is observed through the calls made on it:
    the context is the trace of those calls, oldest first.  A computation on
    it either returns or throws, and keeps the trace drawn so far. *)

Module Canvas.

Inductive CtxOp :=
| BeginPath
| ClosePath
| MoveTo (px py : R)
| LineTo (px py : R)
| Arc (cx cy radius startAngle endAngle : R) (counterclockwise : bool)
| ClearRect (px py w h : R)
| SetFillStyle (c : string)
| SetStrokeStyle (c : string)
| SetLineWidth (w : R)
| SetFont (weight : string) (sizePx : R) (family : string)
| SetTextAlign (a : string)
| SetTextBaseline (b : string)
| FillText (content : string) (px py : R)
| Fill
| Stroke.

Definition Ctx := list CtxOp.

Inductive Outcome (A : Type) :=
| Returned (a : A)
| Thrown (error : string).
Arguments Returned {A} a.
Arguments Thrown {A} error.

Definition Draw (A : Type) := Ctx -> Outcome A * Ctx.

Definition ret {A} (a : A) : Draw A := fun ctx => (Returned a, ctx).

Definition throw {A} (error : string) : Draw A := fun ctx => (Thrown error, ctx).

Definition bind {A B} (m : Draw A) (k : A -> Draw B) : Draw B :=
  fun ctx =>
    match m ctx with
    | (Returned a, ctx') => k a ctx'
    | (Thrown error, ctx') => (Thrown error, ctx')
    end.

(** One call on the context. *)
Definition call (op : CtxOp) : Draw unit := fun ctx => (Returned tt, ctx ++ [op]).

(** [array.forEach(f)] *)
Fixpoint forEach {A} (l : list A) (f : A -> Draw unit) : Draw unit :=
  match l with
  | [] => ret tt
  | a :: l' => bind (f a) (fun _ => forEach l' f)
  end.

(** Reading a property of a value that may be [undefined]. *)
Definition prop {A B} (o : option A) (field : A -> B) : Draw B :=
  match o with
  | Some a => ret (field a)
  | None => throw "TypeError: Cannot read properties of undefined"
  end.

(** A computation that returns, whatever was drawn before. *)
Definition returns (m : Draw unit) : Prop :=
  forall ctx, exists ctx', m ctx = (Returned tt, ctx').

(** A computation that returns after making exactly the calls [trace]. *)
Definition emits (m : Draw unit) (trace : list CtxOp) : Prop :=
  forall ctx, m ctx = (Returned tt, ctx ++ trace).

(** [!o] for an object or [undefined]. *)
Definition not_ {A} (o : option A) : bool :=
  match o with Some _ => false | None => true end.

End Canvas.

Declare Scope draw_scope.
Delimit Scope draw_scope with draw.
Notation "m ;; k" := (Canvas.bind m (fun _ => k))
  (at level 61, right associativity) : draw_scope.
Notation "v <- m ;; k" := (Canvas.bind m (fun v => k))
  (at level 61, m at next level, right associativity) : draw_scope.

(** ** [shapes/draw.ts] *)

Module Draw.
Import Shapes Canvas.

(** [color = 'black'] in a destructuring. *)
Definition colorOr (c : option string) : string :=
  match c with Some v => v | None => "black"%string end.

Definition drawLineWithCtx (options : Line) : Draw unit :=
  (call BeginPath ;;
   call (MoveTo (x (start options)) (y (start options))) ;;
   call (LineTo (x (end_ options)) (y (end_ options))) ;;
   call (SetStrokeStyle (colorOr (color options))) ;;
   call (SetLineWidth (width options)) ;;
   call Stroke ;;
   call ClosePath)%draw.

Definition drawTriangleWithCtx (options : Triangle) : Draw unit :=
  (call BeginPath ;;
   call (MoveTo (x (point1 options)) (y (point1 options))) ;;
   call (LineTo (x (point2 options)) (y (point2 options))) ;;
   call (LineTo (x (point3 options)) (y (point3 options))) ;;
   call (SetFillStyle (colorOr (tcolor options))) ;;
   call Fill ;;
   call ClosePath)%draw.

Definition drawArrowWithCtx (options : Line) : Draw unit :=
  let lineStart := start options in
  let lineEnd := end_ options in
  let width := width options in
  let color := colorOr (color options) in
  let arrowHeadHeight := 25 in
  let angle := JsMath.atan2 (y lineEnd - y lineStart) (x lineEnd - x lineStart) in
  let epiCenter :=
    {| x := x lineEnd - arrowHeadHeight * cos angle;
       y := y lineEnd - arrowHeadHeight * sin angle |} in
  let pLineLength := arrowHeadHeight / 1.75 in
  let trianglePt1 := lineEnd in
  let trianglePt2 :=
    {| x := x epiCenter + pLineLength * cos (angle + PI / 2);
       y := y epiCenter + pLineLength * sin (angle + PI / 2) |} in
  let trianglePt3 :=
    {| x := x epiCenter - pLineLength * cos (angle + PI / 2);
       y := y epiCenter - pLineLength * sin (angle + PI / 2) |} in
  (drawLineWithCtx
     {| start := lineStart; end_ := epiCenter; width := width; color := Some color |} ;;
   drawTriangleWithCtx
     {| point1 := trianglePt1; point2 := trianglePt2; point3 := trianglePt3;
        tcolor := Some color |})%draw.

(** Modelled from the spec: [rotatePoint] of [shapes/helpers] is not among
    the sources.  "Rotates p around center by angle radians (standard 2D
    rotation matrix applied to the translated point, then translated
    back)." *)
Definition rotatePoint (p center : Point) (angle : R) : Point :=
  {| x := x center + (x p - x center) * cos angle - (y p - y center) * sin angle;
     y := y center + (x p - x center) * sin angle + (y p - y center) * cos angle |}.

Definition drawUTurnArrowWithCtx (options : UTurnArrow) : Draw unit :=
  let spacing := spacing options in
  let center := center options in
  let upDistance := upDistance options in
  let downDistance := downDistance options in
  let angle := angle options in
  let lineWidth := lineWidth options in
  let color := colorOr (ucolor options) in
  let arrowHeadHeight := 22 in
  let pLineLength := arrowHeadHeight / 1.75 in
  let longLegFrom :=
    rotatePoint {| x := x center; y := y center - spacing |} center angle in
  let longLegTo :=
    rotatePoint {| x := x center + upDistance; y := y center - spacing |} center angle in
  let shortLegFrom :=
    rotatePoint {| x := x center + upDistance; y := y center + spacing |} center angle in
  let shortLegTo :=
    rotatePoint {| x := x center + upDistance - downDistance; y := y center + spacing |}
                center angle in
  let arcCenter := rotatePoint {| x := x center + upDistance; y := y center |} center angle in
  let epiCenter :=
    {| x := x shortLegTo + pLineLength * cos angle;
       y := y shortLegTo + pLineLength * sin angle |} in
  let trianglePt1 :=
    rotatePoint {| x := x center + upDistance - downDistance - pLineLength;
                   y := y center + spacing |} center angle in
  let trianglePt2 :=
    {| x := x epiCenter + pLineLength * cos (angle + PI / 2);
       y := y epiCenter + pLineLength * sin (angle + PI / 2) |} in
  let trianglePt3 :=
    {| x := x epiCenter - pLineLength * cos (angle + PI / 2);
       y := y epiCenter - pLineLength * sin (angle + PI / 2) |} in
  (drawTriangleWithCtx
     {| point1 := trianglePt1; point2 := trianglePt2; point3 := trianglePt3;
        tcolor := Some color |} ;;
   drawLineWithCtx
     {| start := {| x := x longLegFrom; y := y longLegFrom |};
        end_ := {| x := x longLegTo; y := y longLegTo |};
        width := lineWidth; color := Some color |} ;;
   drawLineWithCtx
     {| start := {| x := x shortLegFrom; y := y shortLegFrom |};
        end_ := {| x := x shortLegTo; y := y shortLegTo |};
        width := lineWidth; color := Some color |} ;;
   call BeginPath ;;
   call (Arc (x arcCenter) (y arcCenter) spacing (PI / 2 + angle) (- PI / 2 + angle) true) ;;
   call (SetStrokeStyle color) ;;
   call Stroke ;;
   call ClosePath)%draw.

End Draw.

(** ** [useGraph/schematics/edge.ts] *)

Module Schematics.
Import Shapes.

(** [GNode] and [GEdge] ([useGraph/types]), with the fields the schematic
    reads; [nx] and [ny] are the node's [x] and [y].  An edge names its end
    nodes by their labels. *)
Record GNode := mkGNode { id : Z; label : string; nx : R; ny : R }.

Record GEdge := mkGEdge { from : string; to : string }.

Definition position (node : GNode) : Point := {| x := nx node; y := ny node |}.

(** An option value is a constant or a function of the node or edge. *)
Inductive MaybeGetter (T K : Type) :=
| Literal (v : T)
| Computed (f : K -> T).
Arguments Literal {T K} v.
Arguments Computed {T K} f.

(** Modelled from the spec: [getValue] of [useGraph/useGraphHelpers] is not
    among the sources.  "A constant is used as-is; a function is invoked
    with the node or edge as argument to compute the effective value." *)
Definition getValue {T K} (value : MaybeGetter T K) (arg : K) : T :=
  match value with
  | Literal v => v
  | Computed f => f arg
  end.

(** The fields of [GraphOptions] ([useGraph/useGraphBase]) that the
    schematic resolves. *)
Record GraphOptions := mkGraphOptions {
  nodeSize : MaybeGetter R GNode;
  edgeWidth : MaybeGetter R GEdge;
  edgeColor : MaybeGetter string GEdge
}.

(** A node object of the [nodes] array.  JavaScript's [===] on objects
    compares references; the reference of an array element is its position
    in the array. *)
Record NodeRef := mkNodeRef { ref : nat; obj : GNode }.

Definition same_object (a b : NodeRef) : bool := Nat.eqb (ref a) (ref b).

(** [nodes.find(node => node.label === l)], keeping the reference. *)
Fixpoint findByLabel (l : string) (nodes : list GNode) (at_ : nat) : option NodeRef :=
  match nodes with
  | [] => None
  | node :: rest =>
      if String.eqb (label node) l then Some (mkNodeRef at_ node)
      else findByLabel l rest (S at_)
  end.

(** Modelled from the spec: [getFromToNodes] of [useGraph/useGraphHelpers]
    is not among the sources.  "Resolve [edge.from]/[edge.to] labels to node
    records"; an edge whose label resolves to no node has no result (the
    builder's precondition is broken). *)
Definition getFromToNodes (edge : GEdge) (nodes : list GNode) : option (NodeRef * NodeRef) :=
  match findByLabel (from edge) nodes 0, findByLabel (to edge) nodes 0 with
  | Some f, Some t => Some (f, t)
  | _, _ => None
  end.

(** [array.map(f)] for an [f] that may fail: the first failure ends it. *)
Fixpoint mapOrFail {A B} (f : A -> option B) (l : list A) : option (list B) :=
  match l with
  | [] => Some []
  | a :: l' =>
      match f a with
      | None => None
      | Some b =>
          match mapOrFail f l' with
          | None => None
          | Some bs => Some (b :: bs)
          end
      end
  end.

Inductive Schematic :=
| Straight (edgeLine : Arrow)
| SelfLoop (selfDirctedEdgeLine : UTurnArrow).

Section WithHelpers.

(** [getLargestAngularSpace] of [shapes/helpers] is not among the
    sources; the schematic is parametric in it. *)
Variable getLargestAngularSpace : Point -> list Point -> R.

(** [edges.some(e => e.from === to.label && e.to === from.label)] *)
Definition isBidirectional (fromN toN : NodeRef) (edges : list GEdge) : bool :=
  existsb (fun e => String.eqb (from e) (label (obj toN))
                    && String.eqb (to e) (label (obj fromN))) edges.

Definition lineSpacing : R := 12.

(** [Math.atan2(to.y - from.y, to.x - from.x)] (line 15) *)
Definition edgeAngle (fromN toN : GNode) : R :=
  JsMath.atan2 (ny toN - ny fromN) (nx toN - nx fromN).

(** Lines 27-33: when the edge is bidirectional a point is moved by
    [lineSpacing] in the direction [angle + PI / 2]. *)
Definition sideways (bidirectional : bool) (angle : R) (p : Point) : Point :=
  if bidirectional
  then {| x := x p + cos (angle + PI / 2) * lineSpacing;
          y := y p + sin (angle + PI / 2) * lineSpacing |}
  else p.

(** Lines 36-40, the points handed to [getLargestAngularSpace]: for each
    edge kept by the filter, the position of one of its two nodes. *)
Definition occupied (fromN toN : NodeRef) (nodes : list GNode) (edges : list GEdge)
  : option (list Point) :=
  mapOrFail
    (fun e =>
       match getFromToNodes e nodes with
       | None => None
       | Some (fromNode, toNode) =>
           Some (if Z.eqb (id (obj fromN)) (id (obj fromNode))
                 then {| x := nx (obj toNode); y := ny (obj toNode) |}
                 else {| x := nx (obj fromNode); y := ny (obj fromNode) |})
       end)
    (filter (fun e => (String.eqb (from e) (label (obj fromN))
                       || String.eqb (to e) (label (obj toN)))
                      && negb (String.eqb (from e) (to e))) edges).

(** [getEdgeSchematic] (lines 7-61).  [start] and [end] are updated in place
    by the bidirectional branch before both forms are built; there is no
    result when the edge, or an edge kept by the filter, does not resolve. *)
Definition getEdgeSchematic (edge : GEdge) (nodes : list GNode) (edges : list GEdge)
           (options : GraphOptions) : option Schematic :=
  match getFromToNodes edge nodes with
  | None => None
  | Some (fromN, toN) =>
      let isBidirectional := isBidirectional fromN toN edges in
      let isSelfDirecting := same_object toN fromN in
      let nodeSizeVal := getValue (nodeSize options) (obj toN) + 10 in
      let angle := edgeAngle (obj fromN) (obj toN) in
      let epiCenter :=
        {| x := nx (obj toN) - nodeSizeVal * cos angle;
           y := ny (obj toN) - nodeSizeVal * sin angle |} in
      let start := {| x := nx (obj fromN); y := ny (obj fromN) |} in
      let end_ := epiCenter in
      let start := sideways isBidirectional angle start in
      let end_ := sideways isBidirectional angle end_ in
      match occupied fromN toN nodes edges with
      | None => None
      | Some points =>
          let largestAngularSpace := getLargestAngularSpace start points in
          let selfDirctedEdgeLine :=
            {| spacing := lineSpacing;
               center := {| x := nx (obj fromN); y := ny (obj fromN) |};
               upDistance := 80;
               downDistance := 25;
               angle := largestAngularSpace;
               lineWidth := getValue (edgeWidth options) edge;
               ucolor := Some (getValue (edgeColor options) edge) |} in
          let edgeLine :=
            {| Shapes.start := start;
               Shapes.end_ := end_;
               color := Some (getValue (edgeColor options) edge);
               width := getValue (edgeWidth options) edge |} in
          Some (if isSelfDirecting then SelfLoop selfDirctedEdgeLine
                else Straight edgeLine)
      end
  end.

End WithHelpers.

(** Modelled from the spec: [getAngle] of [shapes/helpers] is not among the
    sources.  "The direction (radians) from point a to point b, via the
    two-argument arctangent of (b.y - a.y, b.x - a.x)." *)
Definition getAngle (a b : Point) : R := JsMath.atan2 (y b - y a) (x b - x a).

(** Sorting angles in ascending order, by insertion. *)
Fixpoint insertAscending (a : R) (l : list R) : list R :=
  match l with
  | [] => [a]
  | b :: l' => if Rle_dec a b then a :: l else b :: insertAscending a l'
  end.

Definition sortAscending (l : list R) : list R := fold_right insertAscending [] l.

(** Each angle with the gap up to the next one; the last gap wraps around
    to [first]. *)
Fixpoint gaps (first : R) (l : list R) : list (R * R) :=
  match l with
  | [] => []
  | a :: l' =>
      match l' with
      | [] => [(a, first + 2 * PI - a)]
      | b :: _ => (a, b - a) :: gaps first l'
      end
  end.

Fixpoint widest (best : R * R) (l : list (R * R)) : R * R :=
  match l with
  | [] => best
  | g :: l' => widest (if Rlt_dec (snd best) (snd g) then g else best) l'
  end.

(** Modelled from the spec: [getLargestAngularSpace] of [shapes/helpers] is
    not among the sources.  "Compute the angle from origin to each occupied
    point, sort ascending, compute the circular gap between each consecutive
    pair (wrapping the largest-to-smallest gap around 2 PI), pick the maximal
    gap, return its midpoint angle.  Zero occupied points: return a fixed
    default direction", here [0]. *)
Definition largestAngularSpaceOfSpec (origin : Point) (otherPoints : list Point) : R :=
  match sortAscending (map (getAngle origin) otherPoints) with
  | [] => 0
  | first :: rest =>
      match gaps first (first :: rest) with
      | [] => 0
      | g :: gs => let w := widest g gs in fst w + snd w / 2
      end
  end.

End Schematics.

(** ** The basic graph composable ([useGraph]) *)

Module UseGraph.
Import Canvas.

Record Node := mkNode { id : Z; x : R; y : R }.

Record Edge := mkEdge { to : Z; from : Z }.

(** [Partial<Node>]: every field may be left out. *)
Record PartialNode := mkPartialNode {
  id_opt : option Z;
  x_opt : option R;
  y_opt : option R
}.

Record GraphOptions := mkGraphOptions {
  nodeSize : R;
  nodeBorderSize : R;
  nodeColor : string;
  nodeBorderColor : string;
  nodeText : Node -> string;
  nodeTextSize : R;
  nodeTextColor : string;
  edgeColor : string;
  edgeWidth : R
}.

(** [node.id.toString()] *)
Definition toString (n : Z) : string := NilZero.string_of_int (Z.to_int n).

(** The defaults of the destructuring at the head of [useGraph]. *)
Definition defaultOptions : GraphOptions :=
  {| nodeSize := 35;
     nodeBorderSize := 8;
     nodeColor := "white";
     nodeBorderColor := "black";
     nodeText := fun node => toString (id node);
     nodeTextSize := 24;
     nodeTextColor := "black";
     edgeColor := "black";
     edgeWidth := 10 |}.

(** The canvas element, as far as [draw] reads it. *)
Record CanvasElement := mkCanvasElement { width : R; height : R }.

(** The two refs [nodes] and [edges]. *)
Record Graph := mkGraph { nodes : list Node; edges : list Edge }.

Definition empty : Graph := {| nodes := []; edges := [] |}.

(** [a || b] on an id: [undefined] and [0] are falsy. *)
Definition id_or (a : option Z) (b : Z) : Z :=
  match a with
  | Some v => if Z.eqb v 0 then b else v
  | None => b
  end.

(** [array.findIndex(p)]: [-1] when no element passes. *)
Fixpoint findIndex {A} (p : A -> bool) (l : list A) : Z :=
  match l with
  | [] => (-1)%Z
  | a :: l' =>
      if p a then 0%Z
      else let i := findIndex p l' in
           if Z.eqb i (-1) then (-1)%Z else (i + 1)%Z
  end.

(** [array.splice(index, 1)] for an index inside the array. *)
Definition splice1 {A} (index : nat) (l : list A) : list A :=
  firstn index l ++ skipn (S index) l.

Definition addNode (node : PartialNode) (g : Graph) : Graph :=
  {| nodes := nodes g ++
              [ {| id := id_or (id_opt node) (Z.of_nat (List.length (nodes g)) + 1);
                   x := JsMath.number_or (x_opt node) 100;
                   y := JsMath.number_or (y_opt node) 100 |} ];
     edges := edges g |}.

Definition removeNode (id' : Z) (g : Graph) : Graph :=
  let index := findIndex (fun node => Z.eqb (id node) id') (nodes g) in
  {| nodes := if negb (Z.eqb index (-1))
              then splice1 (Z.to_nat index) (nodes g)
              else nodes g;
     edges := filter (fun edge => negb (Z.eqb (from edge) id')
                                  && negb (Z.eqb (to edge) id')) (edges g) |}.

Definition addEdge (edge : Edge) (g : Graph) : Graph :=
  {| nodes := nodes g; edges := edges g ++ [edge] |}.

(** A caller's sequence of [addNode] and [removeNode] calls. *)
Inductive Op :=
| AddNode (node : PartialNode)
| RemoveNode (id' : Z).

Definition step (g : Graph) (op : Op) : Graph :=
  match op with
  | AddNode node => addNode node g
  | RemoveNode id' => removeNode id' g
  end.

Definition run (ops : list Op) (g : Graph) : Graph := fold_left step ops g.

(** The ids in the node collection, in order. *)
Definition ids (g : Graph) : list Z := map id (nodes g).

(** An [addNode] call that gives a position, or none, and no id. *)
Definition plain (p : option R * option R) : Op :=
  AddNode {| id_opt := None; x_opt := fst p; y_opt := snd p |}.

Section Drawing.
Variable canvas : CanvasElement.
Variable options : GraphOptions.

Definition drawNode (node : Node) : Draw unit :=
  (call BeginPath ;;
   call (Arc (x node) (y node) (nodeSize options) 0 (PI * 2) false) ;;
   call (SetFillStyle (nodeColor options)) ;;
   call Fill ;;
   call (SetStrokeStyle (nodeBorderColor options)) ;;
   call (SetLineWidth (nodeBorderSize options)) ;;
   call Stroke ;;
   call ClosePath ;;
   call (SetFont "bold" (nodeTextSize options) "Arial") ;;
   call (SetFillStyle (nodeTextColor options)) ;;
   call (SetTextAlign "center") ;;
   call (SetTextBaseline "middle") ;;
   call (FillText (nodeText options node) (x node) (y node)))%draw.

Definition drawEdge (g : Graph) (edge : Edge) : Draw unit :=
  let from := find (fun node => Z.eqb (id node) (from edge)) (nodes g) in
  let to := find (fun node => Z.eqb (id node) (to edge)) (nodes g) in
  if not_ from || not_ to then ret tt
  else
    (call BeginPath ;;
     fx <- prop from x ;;
     fy <- prop from y ;;
     call (MoveTo fx fy) ;;
     tx <- prop to x ;;
     ty <- prop to y ;;
     call (LineTo tx ty) ;;
     call (SetStrokeStyle (edgeColor options)) ;;
     call (SetLineWidth (edgeWidth options)) ;;
     call Stroke ;;
     call ClosePath)%draw.

Definition draw (g : Graph) : Draw unit :=
  (call (ClearRect 0 0 (width canvas) (height canvas)) ;;
   forEach (edges g) (drawEdge g) ;;
   forEach (nodes g) drawNode)%draw.

End Drawing.

(** [node.x = x; node.y = y] on the first node with the id. *)
Fixpoint moveFirst (id' : Z) (x' y' : R) (l : list Node) : list Node :=
  match l with
  | [] => []
  | node :: rest =>
      if Z.eqb (id node) id' then {| id := id node; x := x'; y := y' |} :: rest
      else node :: moveFirst id' x' y' rest
  end.

Definition moveNode (id' : Z) (x' y' : R) (g : Graph) : Graph :=
  {| nodes := moveFirst id' x' y' (nodes g); edges := edges g |}.

Definition getNode (id' : Z) (g : Graph) : option Node :=
  find (fun node => Z.eqb (id node) id') (nodes g).

Definition removeEdge (edge : Edge) (g : Graph) : Graph :=
  {| nodes := nodes g;
     edges := filter (fun e => negb (Z.eqb (from e) (from edge))
                               || negb (Z.eqb (to e) (to edge))) (edges g) |}.

(** The part of a [MouseEvent] the handlers read. *)
Record MouseEvent := mkMouseEvent { offsetX : R; offsetY : R }.

(** The [dblclick] listener. *)
Definition dblclick (ev : MouseEvent) (g : Graph) : Graph :=
  addNode {| id_opt := None; x_opt := Some (offsetX ev); y_opt := Some (offsetY ev) |} g.

(** [useDraggableGraph]: the graph and the ref [nodeBeingDragged].  The ref
    holds a node object of the graph; the handlers read its [id] only, which
    no operation changes, so the node as it was at the press stands for it. *)
Record Dragging := mkDragging { graph : Graph; nodeBeingDragged : option Node }.

Section Interaction.
Variable options : GraphOptions.

Definition getNodeByCoordinates (x' y' : R) (g : Graph) : option Node :=
  find (fun node =>
          if Rlt_dec (sqrt ((x node - x') ^ 2 + (y node - y') ^ 2)) (nodeSize options)
          then true else false)
       (nodes g).

Definition beginDrag (ev : MouseEvent) (st : Dragging) : Dragging :=
  match getNodeByCoordinates (offsetX ev) (offsetY ev) (graph st) with
  | Some node => {| graph := graph st; nodeBeingDragged := Some node |}
  | None => st
  end.

Definition endDrag (st : Dragging) : Dragging :=
  {| graph := graph st; nodeBeingDragged := None |}.

Definition drag (ev : MouseEvent) (st : Dragging) : Dragging :=
  match nodeBeingDragged st with
  | None => st
  | Some node =>
      {| graph := moveNode (id node) (offsetX ev) (offsetY ev) (graph st);
         nodeBeingDragged := nodeBeingDragged st |}
  end.

(** The three listeners of [useDraggableGraph]. *)
Inductive Mouse :=
| MouseDown (ev : MouseEvent)
| MouseUp
| MouseMove (ev : MouseEvent).

Definition handle (st : Dragging) (m : Mouse) : Dragging :=
  match m with
  | MouseDown ev => beginDrag ev st
  | MouseUp => endDrag st
  | MouseMove ev => drag ev st
  end.

Definition handleAll (ms : list Mouse) (st : Dragging) : Dragging := fold_left handle ms st.

End Interaction.

(** Every edge of the graph names two nodes of the graph. *)
Definition integral (g : Graph) : Prop :=
  forall e, In e (edges g) ->
            (exists n, In n (nodes g) /\ id n = from e) /\
            (exists n, In n (nodes g) /\ id n = to e).

(** Calls that only the node drawer makes, and calls that only the edge
    drawer makes. *)
Definition nodeOnly (op : CtxOp) : bool :=
  match op with
  | Arc _ _ _ _ _ _ | Fill | SetFillStyle _ | SetFont _ _ _ | SetTextAlign _
  | SetTextBaseline _ | FillText _ _ _ => true
  | _ => false
  end.

Definition edgeOnly (op : CtxOp) : bool :=
  match op with
  | MoveTo _ _ | LineTo _ _ => true
  | _ => false
  end.

(** Both ids of the edge are ids of nodes; an edge for which this fails is
    dangling. *)
Definition resolves (g : Graph) (edge : Edge) : bool :=
  existsb (fun node => Z.eqb (id node) (from edge)) (nodes g)
  && existsb (fun node => Z.eqb (id node) (to edge)) (nodes g).

End UseGraph.

(** ** Sample diagrams *)

Module Sample.
Import Shapes Schematics.

(** Nodes A at (0,0) and B at (100,0), node size 35. *)
Definition nodeA : GNode := {| id := 1; label := "A"; nx := 0; ny := 0 |}.
Definition nodeB : GNode := {| id := 2; label := "B"; nx := 100; ny := 0 |}.
Definition edgeAB : GEdge := {| from := "A"; to := "B" |}.
Definition edgeBA : GEdge := {| from := "B"; to := "A" |}.
Definition edgeAA : GEdge := {| from := "A"; to := "A" |}.

Definition options35 : GraphOptions :=
  {| nodeSize := Literal 35; edgeWidth := Literal 10; edgeColor := Literal "black"%string |}.

(** A second node placed on top of A. *)
Definition nodeB_onA : GNode := {| id := 2; label := "B"; nx := 0; ny := 0 |}.

(** A neighbour of A up and to the right. *)
Definition nodeC : GNode := {| id := 3; label := "C"; nx := 12; ny := 12 |}.
Definition edgeAC : GEdge := {| from := "A"; to := "C" |}.

End Sample.

(* ================================================================== *)
(** * Theorems                                                         *)
(* ================================================================== *)

Section Atan2Facts.
Import JsMath.

Lemma atan2_pos_x (y x : R) : 0 < x -> atan2 y x = atan (y / x).
Proof.
  intros Hx. unfold atan2. destruct (Rlt_dec 0 x); [reflexivity | contradiction].
Qed.

Lemma atan2_neg_x_up (y x : R) : x < 0 -> 0 <= y -> atan2 y x = atan (y / x) + PI.
Proof.
  intros Hx Hy. unfold atan2.
  destruct (Rlt_dec 0 x); [lra |].
  destruct (Rlt_dec x 0); [| lra].
  destruct (Rle_dec 0 y); [reflexivity | lra].
Qed.

Lemma atan2_neg_x_down (y x : R) : x < 0 -> y < 0 -> atan2 y x = atan (y / x) - PI.
Proof.
  intros Hx Hy. unfold atan2.
  destruct (Rlt_dec 0 x); [lra |].
  destruct (Rlt_dec x 0); [| lra].
  destruct (Rle_dec 0 y); [lra | reflexivity].
Qed.

Lemma atan2_zero_x_up (y : R) : 0 < y -> atan2 y 0 = PI / 2.
Proof.
  intros Hy. unfold atan2.
  destruct (Rlt_dec 0 0); [lra |].
  destruct (Rlt_dec 0 y); [reflexivity | lra].
Qed.

Lemma atan2_zero_x_down (y : R) : y < 0 -> atan2 y 0 = - (PI / 2).
Proof.
  intros Hy. unfold atan2.
  destruct (Rlt_dec 0 0); [lra |].
  destruct (Rlt_dec 0 y); [lra |].
  destruct (Rlt_dec y 0); [reflexivity | lra].
Qed.

Lemma atan2_origin : atan2 0 0 = 0.
Proof.
  unfold atan2.
  destruct (Rlt_dec 0 0); [lra | reflexivity].
Qed.

(** The length of the vector [(x, y)]. *)
Lemma norm_pos (x y : R) : x <> 0 \/ y <> 0 -> 0 < sqrt (x * x + y * y).
Proof.
  intros H. apply sqrt_lt_R0. destruct H; nra.
Qed.

Lemma norm_sqr (x y : R) : sqrt (x * x + y * y) * sqrt (x * x + y * y) = x * x + y * y.
Proof. apply sqrt_sqrt. nra. Qed.

(** For [x <> 0], [sqrt (1 + (y/x)²)] is the length of [(x, y)] over [|x|]. *)
Lemma sqrt_slope (y x : R) :
  x <> 0 -> sqrt (1 + (y / x)²) = sqrt (x * x + y * y) / Rabs x.
Proof.
  intros Hx.
  assert (Ha : 0 < Rabs x) by (apply Rabs_pos_lt; exact Hx).
  replace (1 + (y / x)²) with ((x * x + y * y) / (Rabs x * Rabs x)).
  - rewrite sqrt_div_alt by nra.
    rewrite sqrt_square by lra. reflexivity.
  - unfold Rsqr.
    replace (Rabs x * Rabs x) with (x * x).
    + field. exact Hx.
    + unfold Rabs. destruct (Rcase_abs x); ring.
Qed.

(** [Math.cos (Math.atan2 y x)] is the first coordinate of the unit vector
    along [(x, y)]. *)
Lemma cos_atan2 (y x : R) :
  x <> 0 \/ y <> 0 -> cos (atan2 y x) = x / sqrt (x * x + y * y).
Proof.
  intros H. pose proof (norm_pos x y H) as Hn.
  destruct (Rtotal_order 0 x) as [Hx | [Hx | Hx]].
  - rewrite atan2_pos_x by exact Hx.
    rewrite cos_atan, sqrt_slope by lra.
    rewrite Rabs_right by lra. field. lra.
  - subst x. destruct H as [H | H]; [lra |].
    replace (0 * 0 + y * y) with (y * y) in * by ring.
    destruct (Rtotal_order 0 y) as [Hy | [Hy | Hy]].
    + rewrite atan2_zero_x_up by exact Hy. rewrite cos_PI2. field. lra.
    + lra.
    + rewrite atan2_zero_x_down by exact Hy. rewrite cos_neg, cos_PI2. field. lra.
  - assert (Hc : cos (atan (y / x)) = - x / sqrt (x * x + y * y)).
    { rewrite cos_atan, sqrt_slope by lra.
      rewrite Rabs_left by lra. field. lra. }
    destruct (Rle_dec 0 y) as [Hy | Hy].
    + rewrite atan2_neg_x_up by lra.
      rewrite neg_cos, Hc. field. lra.
    + rewrite atan2_neg_x_down by lra.
      unfold Rminus. rewrite cos_plus, cos_neg, sin_neg, cos_PI, sin_PI, Hc.
      field. lra.
Qed.

(** [Math.sin (Math.atan2 y x)] is its second coordinate. *)
Lemma sin_atan2 (y x : R) :
  x <> 0 \/ y <> 0 -> sin (atan2 y x) = y / sqrt (x * x + y * y).
Proof.
  intros H. pose proof (norm_pos x y H) as Hn.
  destruct (Rtotal_order 0 x) as [Hx | [Hx | Hx]].
  - rewrite atan2_pos_x by exact Hx.
    rewrite sin_atan, sqrt_slope by lra.
    rewrite Rabs_right by lra. field. lra.
  - subst x. destruct H as [H | H]; [lra |].
    replace (0 * 0 + y * y) with (y * y) in * by ring.
    destruct (Rtotal_order 0 y) as [Hy | [Hy | Hy]].
    + rewrite atan2_zero_x_up by exact Hy. rewrite sin_PI2.
      rewrite sqrt_square by lra. field. lra.
    + lra.
    + rewrite atan2_zero_x_down by exact Hy. rewrite sin_neg, sin_PI2.
      replace (y * y) with ((- y) * (- y)) by ring.
      rewrite sqrt_square by lra. field. lra.
  - assert (Hs : sin (atan (y / x)) = - y / sqrt (x * x + y * y)).
    { rewrite sin_atan, sqrt_slope by lra.
      rewrite Rabs_left by lra. field. lra. }
    destruct (Rle_dec 0 y) as [Hy | Hy].
    + rewrite atan2_neg_x_up by lra.
      rewrite neg_sin, Hs. field. lra.
    + rewrite atan2_neg_x_down by lra.
      unfold Rminus. rewrite sin_plus, cos_neg, sin_neg, cos_PI, sin_PI, Hs.
      field. lra.
Qed.

(** Turning a direction by a quarter. *)
Lemma cos_quarter (a : R) : cos (a + PI / 2) = - sin a.
Proof. rewrite cos_plus, cos_PI2, sin_PI2. ring. Qed.

Lemma sin_quarter (a : R) : sin (a + PI / 2) = cos a.
Proof. rewrite sin_plus, cos_PI2, sin_PI2. ring. Qed.

(** Reversing the vector turns its angle by half a turn. *)
Lemma atan2_opp (y x : R) :
  x <> 0 \/ y <> 0 ->
  atan2 y x - atan2 (- y) (- x) = PI \/ atan2 y x - atan2 (- y) (- x) = - PI.
Proof.
  intros H.
  destruct (Rtotal_order 0 x) as [Hx | [Hx | Hx]].
  - rewrite (atan2_pos_x y x) by exact Hx.
    replace (y / x) with (- y / - x) by (field; lra).
    destruct (Rle_dec 0 (- y)) as [Hy | Hy].
    + rewrite atan2_neg_x_up by lra. right. ring.
    + rewrite atan2_neg_x_down by lra. left. ring.
  - subst x. destruct H as [H | H]; [lra |].
    rewrite Ropp_0.
    destruct (Rtotal_order 0 y) as [Hy | [Hy | Hy]].
    + rewrite atan2_zero_x_up, atan2_zero_x_down by lra. left. field.
    + lra.
    + rewrite atan2_zero_x_down, atan2_zero_x_up by lra. right. field.
  - rewrite (atan2_pos_x (- y) (- x)) by lra.
    replace (- y / - x) with (y / x) by (field; lra).
    destruct (Rle_dec 0 y) as [Hy | Hy].
    + rewrite atan2_neg_x_up by lra. left. ring.
    + rewrite atan2_neg_x_down by lra. right. ring.
Qed.

End Atan2Facts.

(** ** The basic graph store: [addNode] and [removeNode] *)

Section StoreFacts.
Import UseGraph.

Lemma run_app (ops1 ops2 : list Op) (g : Graph) :
  run (ops1 ++ ops2) g = run ops2 (run ops1 g).
Proof. unfold run. apply fold_left_app. Qed.

Lemma findIndex_none {A} (p : A -> bool) (l : list A) :
  (forall a, In a l -> p a = false) -> findIndex p l = (-1)%Z.
Proof.
  induction l as [| a l IH]; intros H; simpl; [reflexivity |].
  rewrite (H a) by (left; reflexivity).
  rewrite IH by (intros b Hb; apply H; right; exact Hb).
  reflexivity.
Qed.

Lemma findIndex_first {A} (p : A -> bool) (before after : list A) (a : A) :
  (forall b, In b before -> p b = false) -> p a = true ->
  findIndex p (before ++ a :: after) = Z.of_nat (List.length before).
Proof.
  induction before as [| b before IH]; intros Hb Ha; simpl.
  - rewrite Ha. reflexivity.
  - rewrite (Hb b) by (left; reflexivity).
    rewrite IH by (try assumption; intros c Hc; apply Hb; right; exact Hc).
    destruct (Z.eqb_spec (Z.of_nat (List.length before)) (-1)); lia.
Qed.

(** [findIndex] answers [-1] or the position of an element. *)
Lemma findIndex_range {A} (p : A -> bool) (l : list A) :
  findIndex p l = (-1)%Z \/
  (0 <= findIndex p l < Z.of_nat (List.length l))%Z.
Proof.
  induction l as [| a l IH]; simpl; [left; reflexivity |].
  destruct (p a); [right; lia |].
  destruct (Z.eqb_spec (findIndex p l) (-1)); [left; reflexivity | right; lia].
Qed.

Lemma splice1_middle {A} (before after : list A) (a : A) :
  splice1 (List.length before) (before ++ a :: after) = before ++ after.
Proof.
  unfold splice1. induction before as [| b before IH]; simpl.
  - reflexivity.
  - f_equal. exact IH.
Qed.

(** Taking one element out of a list splits the list around it. *)
Lemma splice1_split {A} (index : nat) (l : list A) :
  (index < List.length l)%nat ->
  exists before a after,
    l = before ++ a :: after /\ splice1 index l = before ++ after.
Proof.
  intros Hi. unfold splice1.
  destruct (skipn index l) as [| a after] eqn:Hs.
  - apply (f_equal (@List.length A)) in Hs. rewrite length_skipn in Hs.
    simpl in Hs. lia.
  - exists (firstn index l), a, after. split.
    + rewrite <- Hs. symmetry. apply firstn_skipn.
    + f_equal. change (S index) with (1 + index)%nat.
      rewrite <- skipn_skipn, Hs. reflexivity.
Qed.

Lemma NoDup_map_drop {A B} (f : A -> B) (before after : list A) (a : A) :
  NoDup (map f (before ++ a :: after)) -> NoDup (map f (before ++ after)).
Proof.
  rewrite !map_app. simpl. apply NoDup_remove_1.
Qed.

(** [removeNode] never makes two ids equal. *)
Lemma removeNode_keeps_NoDup (id' : Z) (g : Graph) :
  NoDup (ids g) -> NoDup (ids (removeNode id' g)).
Proof.
  intros H. unfold ids in *. unfold removeNode. simpl.
  set (p := fun node : Node => Z.eqb (id node) id').
  destruct (findIndex_range p (nodes g)) as [Hi | Hi].
  - rewrite Hi. simpl. exact H.
  - destruct (Z.eqb_spec (findIndex p (nodes g)) (-1)) as [E | E]; [lia |]. simpl.
    destruct (splice1_split (Z.to_nat (findIndex p (nodes g))) (nodes g)) as
      (before & a & after & Hl & Hs); [lia |].
    rewrite Hs. rewrite Hl in H. apply (NoDup_map_drop _ _ _ _ H).
Qed.

Lemma run_removes_keeps_NoDup (removed : list Z) (g : Graph) :
  NoDup (ids g) -> NoDup (ids (run (map RemoveNode removed) g)).
Proof.
  revert g. induction removed as [| r removed IH]; intros g H; simpl; [exact H |].
  apply IH. apply removeNode_keeps_NoDup. exact H.
Qed.

Lemma plain_adds_number (ps : list (option R * option R)) :
  ids (run (map plain ps) empty) = map Z.of_nat (seq 1 (List.length ps)).
Proof.
  induction ps as [| p ps IH] using rev_ind; [reflexivity |].
  rewrite map_app, run_app. simpl. unfold ids in *. simpl.
  rewrite map_app, IH. simpl.
  rewrite length_app. simpl.
  rewrite Nat.add_1_r, seq_S, map_app. simpl.
  f_equal. f_equal.
  replace (List.length (nodes (run (map plain ps) empty))) with (List.length ps).
  - lia.
  - rewrite <- (length_map id), IH, length_map, length_seq. reflexivity.
Qed.

Lemma NoDup_numbers (n : nat) : NoDup (map Z.of_nat (seq 1 n)).
Proof.
  apply Injective_map_NoDup; [| apply seq_NoDup].
  intros a b. apply Nat2Z.inj.
Qed.

(** C4, as amended: nodes added without an explicit id from the empty
    graph are numbered 1, 2, ..., so their ids are unique, and removals
    after them keep the ids unique.  (An explicit id is stored unchecked,
    see [addNode_explicit_id_repeats].) *)
Theorem addNode_numbers_then_removals_unique
  (ps : list (option R * option R)) (removed : list Z) :
  ids (run (map plain ps) empty) = map Z.of_nat (seq 1 (List.length ps)) /\
  NoDup (ids (run (map plain ps ++ map RemoveNode removed) empty)).
Proof.
  split; [apply plain_adds_number |].
  rewrite run_app. apply run_removes_keeps_NoDup.
  rewrite plain_adds_number. apply NoDup_numbers.
Qed.

(** C4, counterexample: two [addNode] calls with the same explicit id leave
    two nodes with that id. *)
Lemma addNode_explicit_id_repeats :
  ~ NoDup (ids (run [ AddNode {| id_opt := Some 7%Z; x_opt := None; y_opt := None |};
                      AddNode {| id_opt := Some 7%Z; x_opt := None; y_opt := None |} ]
                    empty)).
Proof.
  unfold ids. simpl. intros H. inversion H as [| a l Hin Hnd]; subst.
  apply Hin. left. reflexivity.
Qed.

(** The id that [addNode] makes up is the array length plus one: after a
    removal it can be an id that is still in use. *)
Example addNode_after_removeNode_repeats :
  ids (run [ plain (None, None); plain (None, None); RemoveNode 1%Z; plain (None, None) ]
           empty) = [2%Z; 2%Z].
Proof. reflexivity. Qed.

End StoreFacts.

Section RemoveNodeFacts.
Import UseGraph.

(** C5: [removeNode id] takes the node with that id out of the node
    collection (the first one, should several carry it) and keeps every
    other node in place; it takes out every edge whose [from] or [to] is
    that id and keeps every other edge in place; no edge that is left
    names the id. *)
Theorem removeNode_cascades (id' : Z) (g : Graph) :
  (* no node has the id: the nodes are untouched *)
  ((forall n, In n (nodes g) -> id n <> id') ->
   nodes (removeNode id' g) = nodes g) /\
  (* a node has the id: that node goes, the others stay as they are *)
  (forall before n after,
      nodes g = before ++ n :: after ->
      (forall m, In m before -> id m <> id') ->
      id n = id' ->
      nodes (removeNode id' g) = before ++ after) /\
  (* the nodes with another id are the same before and after *)
  filter (fun n => negb (Z.eqb (id n) id')) (nodes (removeNode id' g)) =
  filter (fun n => negb (Z.eqb (id n) id')) (nodes g) /\
  (* the edges that are left are the edges that do not touch the id *)
  (forall e, In e (edges (removeNode id' g)) <->
             In e (edges g) /\ from e <> id' /\ to e <> id') /\
  edges (removeNode id' g) =
  filter (fun e => negb (Z.eqb (from e) id' || Z.eqb (to e) id')) (edges g) /\
  (* nothing left refers to the id *)
  Forall (fun e => from e <> id' /\ to e <> id') (edges (removeNode id' g)).
Proof.
  set (p := fun node : Node => Z.eqb (id node) id').
  assert (Hnone : (forall n, In n (nodes g) -> id n <> id') ->
                  nodes (removeNode id' g) = nodes g).
  { intros H. unfold removeNode. simpl. fold p.
    rewrite (findIndex_none p) by
      (intros a Ha; unfold p; apply Z.eqb_neq; apply H; exact Ha).
    reflexivity. }
  assert (Hsome : forall before n after,
             nodes g = before ++ n :: after ->
             (forall m, In m before -> id m <> id') ->
             id n = id' ->
             nodes (removeNode id' g) = before ++ after).
  { intros before n after Hl Hb Hn. unfold removeNode. simpl. fold p.
    rewrite Hl.
    rewrite (findIndex_first p) by
      (try (intros b Hin; unfold p; apply Z.eqb_neq; apply Hb; exact Hin);
       unfold p; apply Z.eqb_eq; exact Hn).
    destruct (Z.eqb_spec (Z.of_nat (List.length before)) (-1)) as [E | E]; [lia |].
    simpl. rewrite Nat2Z.id. apply splice1_middle. }
  assert (Hedge : forall e, In e (edges (removeNode id' g)) <->
                            In e (edges g) /\ from e <> id' /\ to e <> id').
  { intros e. unfold removeNode. simpl. rewrite filter_In.
    rewrite andb_true_iff, !negb_true_iff, !Z.eqb_neq. tauto. }
  split; [exact Hnone |]. split; [exact Hsome |].
  split; [| split; [exact Hedge | split]].
  - destruct (existsb p (nodes g)) eqn:Hex.
    + (* split the nodes around the first one with the id *)
      assert (Hsplit : exists before n after,
                 nodes g = before ++ n :: after /\
                 (forall m, In m before -> id m <> id') /\ id n = id').
      { clear Hnone Hsome Hedge. induction (nodes g) as [| a l IH]; [discriminate |].
        simpl in Hex. destruct (p a) eqn:Hpa.
        - exists [], a, l. repeat split; [intros m [] | apply Z.eqb_eq; exact Hpa].
        - simpl in Hex. destruct (IH Hex) as (before & n & after & Hl & Hb & Hn).
          exists (a :: before), n, after. repeat split.
          + simpl. rewrite Hl. reflexivity.
          + intros m [Hm | Hm]; [subst m; apply Z.eqb_neq; exact Hpa | apply Hb; exact Hm].
          + exact Hn. }
      destruct Hsplit as (before & n & after & Hl & Hb & Hn).
      rewrite (Hsome before n after Hl Hb Hn), Hl.
      rewrite !filter_app. simpl.
      replace (Z.eqb (id n) id') with true by (symmetry; apply Z.eqb_eq; exact Hn).
      reflexivity.
    + rewrite Hnone; [reflexivity |].
      intros n Hin. apply Z.eqb_neq.
      destruct (Z.eqb (id n) id') eqn:E; [| reflexivity].
      assert (existsb p (nodes g) = true) by (apply existsb_exists; exists n; auto).
      congruence.
  - unfold removeNode. simpl. apply filter_ext. intros e.
    rewrite negb_orb. reflexivity.
  - apply Forall_forall. intros e He. apply Hedge in He. tauto.
Qed.

(** [removeNode_cascades] on a graph of three nodes and three edges. *)
Example removeNode_cascades_example :
  removeNode 2
    {| nodes := [mkNode 1 0 0; mkNode 2 100 0; mkNode 3 0 100];
       edges := [mkEdge 2 1; mkEdge 3 1; mkEdge 3 2] |} =
    {| nodes := [mkNode 1 0 0; mkNode 3 0 100];
       edges := [mkEdge 3 1] |}.
Proof. reflexivity. Qed.

End RemoveNodeFacts.

(** ** The basic graph store: the redraw *)

Section RedrawFacts.
Import Canvas UseGraph.

Variable canvas : CanvasElement.
Variable options : GraphOptions.

Lemma returns_call (op : CtxOp) : returns (call op).
Proof. intros ctx. eexists. reflexivity. Qed.

Lemma returns_bind (m : Draw unit) (k : unit -> Draw unit) :
  returns m -> (forall u, returns (k u)) -> returns (bind m k).
Proof.
  intros Hm Hk ctx. unfold bind.
  destruct (Hm ctx) as [ctx1 E1]. rewrite E1. apply Hk.
Qed.

Lemma returns_forEach {A} (l : list A) (f : A -> Draw unit) :
  (forall a, returns (f a)) -> returns (forEach l f).
Proof.
  intros Hf. induction l as [| a l IH]; simpl.
  - intros ctx. eexists. reflexivity.
  - apply returns_bind; [apply Hf | intros _; exact IH].
Qed.

Lemma returns_drawNode (node : Node) : returns (drawNode options node).
Proof.
  unfold drawNode.
  repeat (apply returns_bind; [apply returns_call | intros _]).
  apply returns_call.
Qed.

Lemma find_none_iff (g : Graph) (i : Z) :
  find (fun node => Z.eqb (id node) i) (nodes g) = None <->
  (forall n, In n (nodes g) -> id n <> i).
Proof.
  split.
  - intros H n Hin. apply Z.eqb_neq. exact (find_none _ _ H n Hin).
  - intros H. destruct (find _ (nodes g)) as [n |] eqn:E; [| reflexivity].
    apply find_some in E. destruct E as [Hin Hid].
    apply Z.eqb_eq in Hid. exfalso. exact (H n Hin Hid).
Qed.

(** The guard of [drawEdge] covers every property read after it. *)
Lemma returns_drawEdge (g : Graph) (edge : Edge) : returns (drawEdge options g edge).
Proof.
  unfold drawEdge.
  destruct (find _ (nodes g)) as [f |]; simpl;
    [| intros ctx; eexists; reflexivity].
  destruct (find _ (nodes g)) as [t |]; simpl;
    [| intros ctx; eexists; reflexivity].
  intros ctx. eexists. reflexivity.
Qed.

Lemma drawEdge_dangling (g : Graph) (edge : Edge) (ctx : Ctx) :
  (forall n, In n (nodes g) -> id n <> from edge) \/
  (forall n, In n (nodes g) -> id n <> to edge) ->
  drawEdge options g edge ctx = (Returned tt, ctx).
Proof.
  intros H. unfold drawEdge.
  destruct H as [H | H]; apply find_none_iff in H; rewrite H; simpl.
  - reflexivity.
  - rewrite orb_true_r. reflexivity.
Qed.

Lemma resolves_false_iff (g : Graph) (edge : Edge) :
  resolves g edge = false <->
  (forall n, In n (nodes g) -> id n <> from edge) \/
  (forall n, In n (nodes g) -> id n <> to edge).
Proof.
  unfold resolves. rewrite andb_false_iff.
  assert (E : forall i, existsb (fun node => Z.eqb (id node) i) (nodes g) = false <->
                        (forall n, In n (nodes g) -> id n <> i)).
  { intros i. split.
    - intros H n Hin Hid.
      assert (existsb (fun node => Z.eqb (id node) i) (nodes g) = true)
        by (apply existsb_exists; exists n; split; [exact Hin | apply Z.eqb_eq; exact Hid]).
      congruence.
    - intros H. destruct (existsb _ (nodes g)) eqn:Ex; [| reflexivity].
      apply existsb_exists in Ex. destruct Ex as (n & Hin & Hid).
      apply Z.eqb_eq in Hid. exfalso. exact (H n Hin Hid). }
  rewrite !E. tauto.
Qed.

(** Drawing the edges draws the ones that resolve and nothing else. *)
Lemma forEach_skips_dangling (g : Graph) (es : list Edge) (ctx : Ctx) :
  forEach es (drawEdge options g) ctx =
  forEach (filter (resolves g) es) (drawEdge options g) ctx.
Proof.
  revert ctx. induction es as [| e es IH]; intros ctx; simpl; [reflexivity |].
  destruct (resolves g e) eqn:Hr; simpl; unfold bind.
  - destruct (drawEdge options g e ctx) as [[[] | err] ctx1]; [apply IH | reflexivity].
  - rewrite drawEdge_dangling by (apply resolves_false_iff; exact Hr). apply IH.
Qed.

(** C10: [drawEdge] on an edge whose [from] or [to] is the id of no node
    returns at once, with no call made on the context and nothing thrown;
    [draw] returns on every graph, and draws what it would draw with the
    dangling edges taken out. *)
Theorem drawEdge_skips_dangling_and_draw_completes (g : Graph) :
  (forall edge ctx,
      (forall n, In n (nodes g) -> id n <> from edge) \/
      (forall n, In n (nodes g) -> id n <> to edge) ->
      drawEdge options g edge ctx = (Returned tt, ctx)) /\
  (forall ctx, exists ctx', draw canvas options g ctx = (Returned tt, ctx')) /\
  (forall ctx,
      draw canvas options g ctx =
      draw canvas options
           {| nodes := nodes g; edges := filter (resolves g) (edges g) |} ctx).
Proof.
  split; [| split].
  - intros edge ctx H. apply drawEdge_dangling. exact H.
  - unfold draw.
    apply returns_bind; [apply returns_call | intros _].
    apply returns_bind; [| intros _].
    + apply returns_forEach. intros e. apply returns_drawEdge.
    + apply returns_forEach. intros n. apply returns_drawNode.
  - intros ctx. unfold draw, bind. simpl.
    rewrite forEach_skips_dangling.
    set (g' := {| nodes := nodes g; edges := filter (resolves g) (edges g) |}).
    assert (E : forall es c, forEach es (drawEdge options g) c =
                             forEach es (drawEdge options g') c).
    { intros es. induction es as [| e es IH]; intros c; simpl; [reflexivity |].
      unfold bind. change (drawEdge options g' e c) with (drawEdge options g e c).
      destruct (drawEdge options g e c) as [[[] | err] c1]; [apply IH | reflexivity]. }
    rewrite E. reflexivity.
Qed.

End RedrawFacts.

(** [drawEdge_skips_dangling_and_draw_completes] on a graph with one node
    and an edge to a node that does not exist. *)
Lemma draw_dangling_witness :
  let g := {| UseGraph.nodes := [UseGraph.mkNode 1 0 0];
              UseGraph.edges := [UseGraph.mkEdge 2 1] |} in
  UseGraph.drawEdge UseGraph.defaultOptions g (UseGraph.mkEdge 2 1) [] =
  (Canvas.Returned tt, []).
Proof.
  intros g.
  apply (drawEdge_skips_dangling_and_draw_completes
           (UseGraph.mkCanvasElement 300 150) UseGraph.defaultOptions g).
  right. intros n [Hn | []]. subst n. simpl. lia.
Defined.

(** ** Points and directions *)

Section DirectionFacts.
Import Shapes.

Lemma points_differ (a b : Point) :
  a <> b -> x b - x a <> 0 \/ y b - y a <> 0.
Proof.
  intros H.
  destruct (Req_dec (x b - x a) 0) as [Ex | Ex]; [| left; exact Ex].
  destruct (Req_dec (y b - y a) 0) as [Ey | Ey]; [| right; exact Ey].
  exfalso. apply H. destruct a as [ax ay], b as [bx by_]. simpl in *.
  f_equal; lra.
Qed.

Lemma dist_pos (a b : Point) : a <> b -> 0 < dist a b.
Proof. intros H. apply norm_pos. apply points_differ. exact H. Qed.

Lemma dist_sqr (a b : Point) :
  dist a b * dist a b = (x b - x a) * (x b - x a) + (y b - y a) * (y b - y a).
Proof. apply norm_sqr. Qed.

Lemma dir_unit (a b : Point) :
  a <> b -> dirx a b * dirx a b + diry a b * diry a b = 1.
Proof.
  intros H. pose proof (dist_pos a b H) as Hd. pose proof (dist_sqr a b) as Hs.
  unfold dirx, diry.
  replace ((x b - x a) / dist a b * ((x b - x a) / dist a b) +
           (y b - y a) / dist a b * ((y b - y a) / dist a b))
    with (((x b - x a) * (x b - x a) + (y b - y a) * (y b - y a)) / (dist a b * dist a b))
    by (field; lra).
  rewrite <- Hs. field. lra.
Qed.

Lemma dir_reaches (a b : Point) :
  a <> b ->
  x b = x a + dist a b * dirx a b /\ y b = y a + dist a b * diry a b.
Proof.
  intros H. pose proof (dist_pos a b H) as Hd.
  unfold dirx, diry. split; field; lra.
Qed.

(** The angle the sources compute is the angle of the unit vector. *)
Lemma cos_direction (a b : Point) :
  a <> b -> cos (JsMath.atan2 (y b - y a) (x b - x a)) = dirx a b.
Proof. intros H. apply cos_atan2. apply points_differ. exact H. Qed.

Lemma sin_direction (a b : Point) :
  a <> b -> sin (JsMath.atan2 (y b - y a) (x b - x a)) = diry a b.
Proof. intros H. apply sin_atan2. apply points_differ. exact H. Qed.

(** A point pulled back from [b] by [r] along a unit vector is [|r|] away. *)
Lemma dist_pulled_back (b : Point) (r c s : R) :
  c * c + s * s = 1 ->
  dist {| x := x b - r * c; y := y b - r * s |} b = Rabs r.
Proof.
  intros Hu. unfold dist. simpl.
  replace ((x b - (x b - r * c)) * (x b - (x b - r * c)) +
           (y b - (y b - r * s)) * (y b - (y b - r * s)))
    with (r * r * (c * c + s * s)) by ring.
  rewrite Hu, Rmult_1_r.
  change (r * r) with (Rsqr r). apply sqrt_Rsqr_abs.
Qed.

Lemma cos_sin_unit (a : R) : cos a * cos a + sin a * sin a = 1.
Proof. pose proof (sin2_cos2 a) as H. unfold Rsqr in H. lra. Qed.

End DirectionFacts.

(** ** [drawArrowWithCtx] *)

Section ArrowFacts.
Import Shapes Canvas Draw.

(** C9: for a line whose two ends differ, the arrow drawer puts the
    epicenter 25 units before [end] on the way from [start]; the shaft is
    the line from [start] to the epicenter, and the head is the triangle of
    [end] and the two points 25/1.75 units to either side of the
    epicenter, across the direction of the line. *)
Theorem drawArrow_shaft_and_head (options : Line) (ctx : Ctx) :
  start options <> end_ options ->
  let lineStart := start options in
  let lineEnd := end_ options in
  let ux := dirx lineStart lineEnd in
  let uy := diry lineStart lineEnd in
  let color := colorOr (color options) in
  let epicenter := {| x := x lineEnd - 25 * ux; y := y lineEnd - 25 * uy |} in
  let base1 := {| x := x epicenter - 25 / 1.75 * uy; y := y epicenter + 25 / 1.75 * ux |} in
  let base2 := {| x := x epicenter + 25 / 1.75 * uy; y := y epicenter - 25 / 1.75 * ux |} in
  dist epicenter lineEnd = 25 /\
  dist epicenter base1 = 25 / 1.75 /\
  dist epicenter base2 = 25 / 1.75 /\
  drawArrowWithCtx options ctx =
  (Returned tt,
   ctx ++ [ BeginPath;
            MoveTo (x lineStart) (y lineStart);
            LineTo (x epicenter) (y epicenter);
            SetStrokeStyle color;
            SetLineWidth (width options);
            Stroke;
            ClosePath;
            BeginPath;
            MoveTo (x lineEnd) (y lineEnd);
            LineTo (x base1) (y base1);
            LineTo (x base2) (y base2);
            SetFillStyle color;
            Fill;
            ClosePath ]).
Proof.
  intros Hne lineStart lineEnd ux uy color epicenter base1 base2.
  pose proof (dir_unit lineStart lineEnd Hne) as Hu. fold ux uy in Hu.
  assert (Hside : forall p q : Point,
             (x q - x p) * (x q - x p) + (y q - y p) * (y q - y p) =
             (25 / 1.75) * (25 / 1.75) -> dist p q = 25 / 1.75).
  { intros p q E. unfold dist. rewrite E. apply sqrt_square. lra. }
  split; [| split; [| split]].
  - unfold epicenter. rewrite dist_pulled_back by exact Hu.
    apply Rabs_right. lra.
  - apply Hside. unfold base1, epicenter. simpl.
    replace (x lineEnd - 25 * ux - 25 / 1.75 * uy - (x lineEnd - 25 * ux))
      with (- (25 / 1.75 * uy)) by ring.
    replace (y lineEnd - 25 * uy + 25 / 1.75 * ux - (y lineEnd - 25 * uy))
      with (25 / 1.75 * ux) by ring.
    replace (- (25 / 1.75 * uy) * - (25 / 1.75 * uy) + 25 / 1.75 * ux * (25 / 1.75 * ux))
      with (25 / 1.75 * (25 / 1.75) * (ux * ux + uy * uy)) by ring.
    rewrite Hu. ring.
  - apply Hside. unfold base2, epicenter. simpl.
    replace (x lineEnd - 25 * ux + 25 / 1.75 * uy - (x lineEnd - 25 * ux))
      with (25 / 1.75 * uy) by ring.
    replace (y lineEnd - 25 * uy - 25 / 1.75 * ux - (y lineEnd - 25 * uy))
      with (- (25 / 1.75 * ux)) by ring.
    replace (25 / 1.75 * uy * (25 / 1.75 * uy) + - (25 / 1.75 * ux) * - (25 / 1.75 * ux))
      with (25 / 1.75 * (25 / 1.75) * (ux * ux + uy * uy)) by ring.
    rewrite Hu. ring.
  - unfold drawArrowWithCtx, drawLineWithCtx, drawTriangleWithCtx, bind, call. simpl.
    rewrite cos_quarter, sin_quarter.
    rewrite (cos_direction _ _ Hne), (sin_direction _ _ Hne).
    fold lineStart lineEnd ux uy color.
    rewrite <- !app_assoc. simpl.
    replace (x lineEnd - 25 * ux + 25 / 1.75 * - uy)
      with (x lineEnd - 25 * ux - 25 / 1.75 * uy) by ring.
    replace (x lineEnd - 25 * ux - 25 / 1.75 * - uy)
      with (x lineEnd - 25 * ux + 25 / 1.75 * uy) by ring.
    reflexivity.
Qed.

(** [drawArrow_shaft_and_head] on the line from (0,0) to (100,0). *)
Lemma drawArrow_witness :
  Shapes.dist
    {| x := 100 - 25 * dirx (mkPoint 0 0) (mkPoint 100 0);
       y := 0 - 25 * diry (mkPoint 0 0) (mkPoint 100 0) |}
    (mkPoint 100 0) = 25.
Proof.
  assert (Hne : mkPoint 0 0 <> mkPoint 100 0).
  { intros E. inversion E. lra. }
  exact (proj1 (drawArrow_shaft_and_head
                  {| start := mkPoint 0 0; end_ := mkPoint 100 0;
                     color := None; width := 10 |} [] Hne)).
Defined.

End ArrowFacts.

(** ** [getEdgeSchematic]: resolving the edge *)

Section ResolveFacts.
Import Shapes Schematics.

Lemma findByLabel_found (l : string) (nodes : list GNode) (k : nat) (r : NodeRef) :
  findByLabel l nodes k = Some r ->
  label (obj r) = l /\ (k <= ref r)%nat /\ nth_error nodes (ref r - k) = Some (obj r).
Proof.
  revert k. induction nodes as [| node rest IH]; intros k H; simpl in H; [discriminate |].
  destruct (String.eqb_spec (label node) l) as [E | E].
  - inversion H; subst r; simpl. rewrite Nat.sub_diag. auto.
  - destruct (IH (S k) H) as (Hl & Hk & Hn). split; [exact Hl | split; [lia |]].
    replace (ref r - k)%nat with (S (ref r - S k)) by lia. exact Hn.
Qed.

(** Two labels resolve to the same node object exactly when they are the
    same label. *)
Lemma same_object_iff_label (l1 l2 : string) (nodes : list GNode) (r1 r2 : NodeRef) :
  findByLabel l1 nodes 0 = Some r1 ->
  findByLabel l2 nodes 0 = Some r2 ->
  (same_object r1 r2 = true <-> l1 = l2).
Proof.
  intros H1 H2. unfold same_object. rewrite Nat.eqb_eq. split.
  - intros E.
    destruct (findByLabel_found _ _ _ _ H1) as (L1 & _ & N1).
    destruct (findByLabel_found _ _ _ _ H2) as (L2 & _ & N2).
    rewrite E in N1. rewrite N1 in N2. inversion N2 as [O].
    rewrite <- L1, <- L2, O. reflexivity.
  - intros E. subst l2. rewrite H1 in H2. inversion H2. reflexivity.
Qed.

Lemma getFromToNodes_found (edge : GEdge) (nodes : list GNode) (fromN toN : NodeRef) :
  getFromToNodes edge nodes = Some (fromN, toN) ->
  findByLabel (from edge) nodes 0 = Some fromN /\
  findByLabel (to edge) nodes 0 = Some toN /\
  label (obj fromN) = from edge /\ label (obj toN) = to edge.
Proof.
  unfold getFromToNodes. intros H.
  destruct (findByLabel (from edge) nodes 0) as [f |] eqn:Hf; [| discriminate].
  destruct (findByLabel (to edge) nodes 0) as [t |] eqn:Ht; [| discriminate].
  inversion H; subst f t.
  repeat split;
    [ apply (findByLabel_found _ _ _ _ Hf) | apply (findByLabel_found _ _ _ _ Ht) ].
Qed.

(** The schematic is the self-loop form exactly for an edge from a label
    to the same label. *)
Lemma self_directing_iff (edge : GEdge) (nodes : list GNode) (fromN toN : NodeRef) :
  getFromToNodes edge nodes = Some (fromN, toN) ->
  (same_object toN fromN = true <-> from edge = to edge).
Proof.
  intros H. destruct (getFromToNodes_found _ _ _ _ H) as (Hf & Ht & _).
  rewrite (same_object_iff_label _ _ _ _ _ Ht Hf). split; congruence.
Qed.

(** The reverse edge resolves to the same two nodes, the other way round. *)
Lemma getFromToNodes_reverse (edge back : GEdge) (nodes : list GNode) (fromN toN : NodeRef) :
  getFromToNodes edge nodes = Some (fromN, toN) ->
  from back = to edge -> to back = from edge ->
  getFromToNodes back nodes = Some (toN, fromN).
Proof.
  intros H Hf Ht. destruct (getFromToNodes_found _ _ _ _ H) as (Ef & Et & _).
  unfold getFromToNodes. rewrite Hf, Ht, Ef, Et. reflexivity.
Qed.

Lemma isBidirectional_iff (edge : GEdge) (nodes : list GNode) (edges : list GEdge)
      (fromN toN : NodeRef) :
  getFromToNodes edge nodes = Some (fromN, toN) ->
  (isBidirectional fromN toN edges = true <->
   exists e, In e edges /\ from e = to edge /\ to e = from edge).
Proof.
  intros H. destruct (getFromToNodes_found _ _ _ _ H) as (_ & _ & Lf & Lt).
  unfold isBidirectional. rewrite existsb_exists. rewrite Lf, Lt.
  split; intros (e & Hin & He); exists e; split; try exact Hin.
  - apply andb_true_iff in He. destruct He as [A B].
    apply String.eqb_eq in A. apply String.eqb_eq in B. auto.
  - destruct He as [A B]. rewrite A, B, !String.eqb_refl. reflexivity.
Qed.

Lemma isBidirectional_false (edge : GEdge) (nodes : list GNode) (edges : list GEdge)
      (fromN toN : NodeRef) :
  getFromToNodes edge nodes = Some (fromN, toN) ->
  (forall e, In e edges -> ~ (from e = to edge /\ to e = from edge)) ->
  isBidirectional fromN toN edges = false.
Proof.
  intros H Hno. destruct (isBidirectional fromN toN edges) eqn:E; [| reflexivity].
  apply (isBidirectional_iff _ _ _ _ _ H) in E. destruct E as (e & Hin & He).
  exfalso. exact (Hno e Hin He).
Qed.

Lemma mapOrFail_total {A B} (f : A -> option B) (l : list A) :
  (forall a, In a l -> f a <> None) -> exists bs, mapOrFail f l = Some bs.
Proof.
  induction l as [| a l IH]; intros H; simpl; [eexists; reflexivity |].
  destruct (f a) as [b |] eqn:E; [| exfalso; apply (H a); [left; reflexivity | exact E]].
  destruct IH as [bs Hbs]; [intros c Hc; apply H; right; exact Hc |].
  rewrite Hbs. eexists. reflexivity.
Qed.

(** With every edge resolving, the occupied directions are computed. *)
Lemma occupied_total (fromN toN : NodeRef) (nodes : list GNode) (edges : list GEdge) :
  (forall e, In e edges -> getFromToNodes e nodes <> None) ->
  exists points, occupied fromN toN nodes edges = Some points.
Proof.
  intros H. unfold occupied. apply mapOrFail_total.
  intros e He. apply filter_In in He. destruct He as [He _].
  specialize (H e He). destruct (getFromToNodes e nodes) as [[f t] |]; congruence.
Qed.

End ResolveFacts.

(** ** [getEdgeSchematic]: the straight form *)

Section StraightFacts.
Import Shapes Schematics.

Variable getLargestAngularSpace : Point -> list Point -> R.
Variable nodes : list GNode.
Variable edges : list GEdge.
Variable options : GraphOptions.

(** The caller's side of the contract: every edge of the collection names
    two nodes of the collection. *)
Hypothesis integrity : forall e, In e edges -> getFromToNodes e nodes <> None.

(** What [getEdgeSchematic] returns for an edge between two nodes. *)
Lemma getEdgeSchematic_straight (edge : GEdge) (fromN toN : NodeRef) :
  getFromToNodes edge nodes = Some (fromN, toN) ->
  same_object toN fromN = false ->
  let angle := edgeAngle (obj fromN) (obj toN) in
  let nodeSizeVal := getValue (nodeSize options) (obj toN) + 10 in
  let flag := isBidirectional fromN toN edges in
  getEdgeSchematic getLargestAngularSpace edge nodes edges options =
  Some (Straight
          {| start := sideways flag angle (position (obj fromN));
             end_ := sideways flag angle
                       {| x := nx (obj toN) - nodeSizeVal * cos angle;
                          y := ny (obj toN) - nodeSizeVal * sin angle |};
             color := Some (getValue (edgeColor options) edge);
             width := getValue (edgeWidth options) edge |}).
Proof.
  intros H Hs angle nodeSizeVal flag. unfold getEdgeSchematic. rewrite H.
  destruct (occupied_total fromN toN nodes edges integrity) as [points Hp].
  rewrite Hp, Hs. reflexivity.
Qed.

(** The angle of an edge in terms of the unit vector between the nodes. *)
Lemma cos_edgeAngle (a b : GNode) :
  position a <> position b -> cos (edgeAngle a b) = dirx (position a) (position b).
Proof. intros H. apply (cos_direction (position a) (position b) H). Qed.

Lemma sin_edgeAngle (a b : GNode) :
  position a <> position b -> sin (edgeAngle a b) = diry (position a) (position b).
Proof. intros H. apply (sin_direction (position a) (position b) H). Qed.

(** C1, as amended: for an edge between two different nodes,
    [getEdgeSchematic] returns a Straight form.  With no reverse edge in
    the collection, [start] is the source position and [end] is
    [|nodeSize(to) + 10|] away from the destination centre, wherever the
    source is; when the two positions differ, [end] is the point of the
    line through [start] and the destination centre that lies
    [nodeSize(to) + 10] from the centre, measured towards [start].  With a
    reverse edge in the collection and the two positions different,
    [start] and [end] are the source position and that same point, both
    moved 12 units along the unit normal of the direction from source to
    destination. *)
Theorem straight_end_pulled_back (edge : GEdge) (fromN toN : NodeRef) :
  getFromToNodes edge nodes = Some (fromN, toN) ->
  same_object toN fromN = false ->
  let A := position (obj fromN) in
  let B := position (obj toN) in
  let nodeSizeVal := getValue (nodeSize options) (obj toN) + 10 in
  exists edgeLine,
    getEdgeSchematic getLargestAngularSpace edge nodes edges options =
    Some (Straight edgeLine) /\
    ((forall e, In e edges -> ~ (from e = to edge /\ to e = from edge)) ->
     start edgeLine = A /\
     dist (end_ edgeLine) B = Rabs nodeSizeVal /\
     (A <> B ->
      end_ edgeLine = {| x := x B + nodeSizeVal / dist A B * (x A - x B);
                         y := y B + nodeSizeVal / dist A B * (y A - y B) |})) /\
    ((exists e, In e edges /\ from e = to edge /\ to e = from edge) ->
     A <> B ->
     start edgeLine = {| x := x A - 12 * diry A B; y := y A + 12 * dirx A B |} /\
     end_ edgeLine = {| x := x B - nodeSizeVal * dirx A B - 12 * diry A B;
                        y := y B - nodeSizeVal * diry A B + 12 * dirx A B |}).
Proof.
  intros H Hs A B nodeSizeVal.
  eexists. split; [apply (getEdgeSchematic_straight edge fromN toN H Hs) |].
  cbv zeta. split.
  - intros Hno. rewrite (isBidirectional_false _ _ _ _ _ H Hno). simpl.
    split; [reflexivity |]. split.
    + apply (dist_pulled_back B). apply cos_sin_unit.
    + intros Hne. rewrite (cos_edgeAngle _ _ Hne), (sin_edgeAngle _ _ Hne).
      fold A B nodeSizeVal. pose proof (dist_pos A B Hne) as Hd.
      unfold dirx, diry. simpl. f_equal; field; lra.
  - intros Hrev Hne.
    apply (isBidirectional_iff _ _ _ _ _ H) in Hrev. rewrite Hrev.
    unfold sideways, lineSpacing. simpl.
    rewrite cos_quarter, sin_quarter.
    rewrite (cos_edgeAngle _ _ Hne), (sin_edgeAngle _ _ Hne).
    fold A B nodeSizeVal. split; f_equal; ring.
Qed.

End StraightFacts.

(** ** [getEdgeSchematic]: the two lanes of a bidirectional pair *)

Section LaneFacts.
Import Shapes Schematics.

Lemma dist_sym (a b : Point) : dist b a = dist a b.
Proof. unfold dist. f_equal. ring. Qed.

Lemma dirx_opp (a b : Point) : a <> b -> dirx b a = - dirx a b.
Proof.
  intros H. pose proof (dist_pos a b H). unfold dirx. rewrite dist_sym. field. lra.
Qed.

Lemma diry_opp (a b : Point) : a <> b -> diry b a = - diry a b.
Proof.
  intros H. pose proof (dist_pos a b H). unfold diry. rewrite dist_sym. field. lra.
Qed.

(** Two lines along the direction from [A] to [B], one moved 12 units to
    one side and the other 12 units to the other side, share no point. *)
Lemma lanes_apart (A B : Point) (l1 l2 : Line) (sA sB : R) :
  A <> B ->
  start l1 = {| x := x A - 12 * diry A B; y := y A + 12 * dirx A B |} ->
  end_ l1 = {| x := x B - sB * dirx A B - 12 * diry A B;
               y := y B - sB * diry A B + 12 * dirx A B |} ->
  start l2 = {| x := x B + 12 * diry A B; y := y B - 12 * dirx A B |} ->
  end_ l2 = {| x := x A + sA * dirx A B + 12 * diry A B;
               y := y A + sA * diry A B - 12 * dirx A B |} ->
  forall s t, along l1 s <> along l2 t.
Proof.
  intros Hne S1 E1 S2 E2 s t Heq.
  pose proof (dir_unit A B Hne) as Hu.
  destruct (dir_reaches A B Hne) as [Hx Hy].
  assert (K : (x (along l1 s) - x (along l2 t)) * - diry A B +
              (y (along l1 s) - y (along l2 t)) * dirx A B =
              24 * (dirx A B * dirx A B + diry A B * diry A B)).
  { unfold along. rewrite S1, E1, S2, E2. simpl.
    set (ux := dirx A B) in *. set (uy := diry A B) in *. clearbody ux uy.
    rewrite Hx, Hy. ring. }
  rewrite Heq, Hu in K. lra.
Qed.

Variable getLargestAngularSpace : Point -> list Point -> R.
Variable nodes : list GNode.
Variable edges : list GEdge.
Variable options : GraphOptions.
Hypothesis integrity : forall e, In e edges -> getFromToNodes e nodes <> None.

(** Nodes at different positions are different nodes. *)
Lemma apart_not_same_object (edge : GEdge) (fromN toN : NodeRef) :
  getFromToNodes edge nodes = Some (fromN, toN) ->
  position (obj fromN) <> position (obj toN) ->
  same_object toN fromN = false.
Proof.
  intros H Hne. destruct (same_object toN fromN) eqn:E; [| reflexivity].
  apply (self_directing_iff _ _ _ _ H) in E.
  destruct (getFromToNodes_found _ _ _ _ H) as (Hf & Ht & _).
  rewrite E in Hf. rewrite Hf in Ht. inversion Ht. subst toN.
  exfalso. apply Hne. reflexivity.
Qed.

(** C6, as amended: for two nodes A and B at different positions with both
    edges (A,B) and (B,A) in the collection, both edges are flagged
    bidirectional, the lane of (A,B) is moved 12 units to one side of the
    direction from A to B and the lane of (B,A) 12 units to the other
    side, and the two lanes share no point. *)
Theorem bidirectional_lanes_oppose (ab ba : GEdge) (nA nB : NodeRef) :
  In ab edges -> In ba edges ->
  from ba = to ab -> to ba = from ab ->
  getFromToNodes ab nodes = Some (nA, nB) ->
  position (obj nA) <> position (obj nB) ->
  let A := position (obj nA) in
  let B := position (obj nB) in
  let sizeA := getValue (nodeSize options) (obj nA) + 10 in
  let sizeB := getValue (nodeSize options) (obj nB) + 10 in
  isBidirectional nA nB edges = true /\
  isBidirectional nB nA edges = true /\
  exists lane1 lane2,
    getEdgeSchematic getLargestAngularSpace ab nodes edges options =
    Some (Straight lane1) /\
    getEdgeSchematic getLargestAngularSpace ba nodes edges options =
    Some (Straight lane2) /\
    start lane1 = {| x := x A - 12 * diry A B; y := y A + 12 * dirx A B |} /\
    end_ lane1 = {| x := x B - sizeB * dirx A B - 12 * diry A B;
                    y := y B - sizeB * diry A B + 12 * dirx A B |} /\
    start lane2 = {| x := x B + 12 * diry A B; y := y B - 12 * dirx A B |} /\
    end_ lane2 = {| x := x A + sizeA * dirx A B + 12 * diry A B;
                    y := y A + sizeA * diry A B - 12 * dirx A B |} /\
    forall s t, along lane1 s <> along lane2 t.
Proof.
  intros Hab Hba Hf Ht H Hne A B sizeA sizeB.
  pose proof (getFromToNodes_reverse _ _ _ _ _ H Hf Ht) as H'.
  assert (Hne' : position (obj nB) <> position (obj nA)) by (intros E; apply Hne; auto).
  assert (F1 : isBidirectional nA nB edges = true).
  { apply (isBidirectional_iff _ _ _ _ _ H). exists ba. auto. }
  assert (F2 : isBidirectional nB nA edges = true).
  { apply (isBidirectional_iff _ _ _ _ _ H'). exists ab. rewrite Hf, Ht. auto. }
  split; [exact F1 |]. split; [exact F2 |].
  pose proof (getEdgeSchematic_straight getLargestAngularSpace nodes edges options
                integrity ab nA nB H (apart_not_same_object _ _ _ H Hne)) as G1.
  pose proof (getEdgeSchematic_straight getLargestAngularSpace nodes edges options
                integrity ba nB nA H' (apart_not_same_object _ _ _ H' Hne')) as G2.
  cbv zeta in G1, G2. rewrite F1 in G1. rewrite F2 in G2.
  eexists. eexists.
  split; [exact G1 |]. split; [exact G2 |].
  assert (S1 : sideways true (edgeAngle (obj nA) (obj nB)) (position (obj nA)) =
               {| x := x A - 12 * diry A B; y := y A + 12 * dirx A B |}).
  { unfold sideways, lineSpacing. rewrite cos_quarter, sin_quarter.
    rewrite (sin_edgeAngle _ _ Hne), (cos_edgeAngle _ _ Hne). fold A B.
    f_equal; ring. }
  assert (E1 : sideways true (edgeAngle (obj nA) (obj nB))
                 {| x := nx (obj nB) - sizeB * cos (edgeAngle (obj nA) (obj nB));
                    y := ny (obj nB) - sizeB * sin (edgeAngle (obj nA) (obj nB)) |} =
               {| x := x B - sizeB * dirx A B - 12 * diry A B;
                  y := y B - sizeB * diry A B + 12 * dirx A B |}).
  { unfold sideways, lineSpacing. rewrite cos_quarter, sin_quarter.
    rewrite (sin_edgeAngle _ _ Hne), (cos_edgeAngle _ _ Hne). fold A B.
    simpl. f_equal; ring. }
  assert (S2 : sideways true (edgeAngle (obj nB) (obj nA)) (position (obj nB)) =
               {| x := x B + 12 * diry A B; y := y B - 12 * dirx A B |}).
  { unfold sideways, lineSpacing. rewrite cos_quarter, sin_quarter.
    rewrite (sin_edgeAngle _ _ Hne'), (cos_edgeAngle _ _ Hne'). fold A B.
    rewrite (dirx_opp A B Hne), (diry_opp A B Hne). f_equal; ring. }
  assert (E2 : sideways true (edgeAngle (obj nB) (obj nA))
                 {| x := nx (obj nA) - sizeA * cos (edgeAngle (obj nB) (obj nA));
                    y := ny (obj nA) - sizeA * sin (edgeAngle (obj nB) (obj nA)) |} =
               {| x := x A + sizeA * dirx A B + 12 * diry A B;
                  y := y A + sizeA * diry A B - 12 * dirx A B |}).
  { unfold sideways, lineSpacing. rewrite cos_quarter, sin_quarter.
    rewrite (sin_edgeAngle _ _ Hne'), (cos_edgeAngle _ _ Hne'). fold A B.
    rewrite (dirx_opp A B Hne), (diry_opp A B Hne). simpl. f_equal; ring. }
  cbn [start end_]. subst sizeA sizeB. rewrite S1, E1, S2, E2.
  repeat (split; [reflexivity |]).
  apply (lanes_apart A B _ _ (getValue (nodeSize options) (obj nA) + 10)
           (getValue (nodeSize options) (obj nB) + 10) Hne); reflexivity.
Qed.

End LaneFacts.

(** ** [getEdgeSchematic]: the self-loop form *)

Section SelfLoopFacts.
Import Shapes Schematics.

Variable getLargestAngularSpace : Point -> list Point -> R.

(** The angle between a point and itself is [Math.atan2(0, 0)]. *)
Lemma edgeAngle_same_position (a b : GNode) :
  position a = position b -> edgeAngle a b = 0.
Proof.
  intros E. unfold edgeAngle.
  assert (Ex : nx b = nx a) by (apply (f_equal x) in E; simpl in E; auto).
  assert (Ey : ny b = ny a) by (apply (f_equal y) in E; simpl in E; auto).
  rewrite Ex, Ey, !Rminus_diag. apply atan2_origin.
Qed.

Lemma sideways_from_zero (p : Point) :
  sideways true 0 p = {| x := x p; y := y p + 12 |}.
Proof.
  unfold sideways, lineSpacing. rewrite cos_quarter, sin_quarter, sin_0, cos_0.
  f_equal; ring.
Qed.

(** A self-loop edge that is in the edge collection satisfies the
    bidirectional test by itself. *)
Lemma self_loop_in_collection_flagged (edge : GEdge) (nodes : list GNode)
      (edges : list GEdge) (fromN toN : NodeRef) :
  getFromToNodes edge nodes = Some (fromN, toN) ->
  from edge = to edge -> In edge edges ->
  isBidirectional fromN toN edges = true.
Proof.
  intros H Hl Hin. apply (isBidirectional_iff _ _ _ _ _ H).
  exists edge. auto.
Qed.

(** What [getEdgeSchematic] returns for a self-loop edge of the
    collection: the origin handed to [getLargestAngularSpace] is the node
    position moved 12 units along y, the loop's [center] is the node
    position itself. *)
Lemma getEdgeSchematic_self_loop (edge : GEdge) (nodes : list GNode) (edges : list GEdge)
      (options : GraphOptions) (fromN toN : NodeRef) (points : list Point) :
  getFromToNodes edge nodes = Some (fromN, toN) ->
  from edge = to edge -> In edge edges ->
  occupied fromN toN nodes edges = Some points ->
  getEdgeSchematic getLargestAngularSpace edge nodes edges options =
  Some (SelfLoop
          {| spacing := 12;
             center := position (obj fromN);
             upDistance := 80;
             downDistance := 25;
             angle := getLargestAngularSpace
                        {| x := nx (obj fromN); y := ny (obj fromN) + 12 |} points;
             lineWidth := getValue (edgeWidth options) edge;
             ucolor := Some (getValue (edgeColor options) edge) |}).
Proof.
  intros H Hl Hin Hp.
  pose proof (proj2 (self_directing_iff _ _ _ _ H) Hl) as Hs.
  assert (Hsame : toN = fromN).
  { destruct (getFromToNodes_found _ _ _ _ H) as (Hf & Ht & _).
    rewrite Hl in Hf. rewrite Hf in Ht. inversion Ht. reflexivity. }
  unfold getEdgeSchematic. rewrite H, Hp, Hs.
  rewrite (self_loop_in_collection_flagged _ _ _ _ _ H Hl Hin).
  subst toN. rewrite (edgeAngle_same_position _ _ eq_refl).
  rewrite sideways_from_zero. reflexivity.
Qed.

End SelfLoopFacts.

(** ** Modelled helper: the largest angular space around one neighbour *)

Section AngularSpaceFacts.
Import Shapes Schematics.

Lemma largestAngularSpaceOfSpec_one (origin p : Point) :
  largestAngularSpaceOfSpec origin [p] = getAngle origin p + PI.
Proof.
  unfold largestAngularSpaceOfSpec. simpl. field.
Qed.

Lemma largestAngularSpaceOfSpec_none (origin : Point) :
  largestAngularSpaceOfSpec origin [] = 0.
Proof. reflexivity. Qed.

End AngularSpaceFacts.

(** ** The sample diagrams *)

Section SampleFacts.
Import Shapes Schematics Sample.

Lemma atan2_right (x0 : R) : 0 < x0 -> JsMath.atan2 0 x0 = 0.
Proof.
  intros H. rewrite atan2_pos_x by exact H.
  replace (0 / x0) with 0 by (field; lra). apply atan_0.
Qed.

Lemma atan2_left (x0 : R) : x0 < 0 -> JsMath.atan2 0 x0 = PI.
Proof.
  intros H. rewrite atan2_neg_x_up by lra.
  replace (0 / x0) with 0 by (field; lra). rewrite atan_0. ring.
Qed.

Lemma edgeAngle_A_B : edgeAngle nodeA nodeB = 0.
Proof.
  unfold edgeAngle, nodeA, nodeB. cbn [nx ny].
  rewrite Rminus_diag. apply atan2_right. lra.
Qed.

Lemma edgeAngle_B_A : edgeAngle nodeB nodeA = PI.
Proof.
  unfold edgeAngle, nodeA, nodeB. cbn [nx ny].
  rewrite Rminus_diag. apply atan2_left. lra.
Qed.

Lemma positions_A_B : position nodeA <> position nodeB.
Proof. intros E. inversion E. lra. Qed.

Lemma integrity_one : forall e, In e [edgeAB] -> getFromToNodes e [nodeA; nodeB] <> None.
Proof. intros e [<- | []]. discriminate. Qed.

Lemma integrity_pair :
  forall e, In e [edgeAB; edgeBA] -> getFromToNodes e [nodeA; nodeB] <> None.
Proof. intros e [<- | [<- | []]]; discriminate. Qed.

Lemma integrity_pair_onA :
  forall e, In e [edgeAB; edgeBA] -> getFromToNodes e [nodeA; nodeB_onA] <> None.
Proof. intros e [<- | [<- | []]]; discriminate. Qed.

(** C7: nodes A at (0,0) and B at (100,0), the single edge from A to B and
    a node size resolving to 35 give a Straight form with [start] = (0,0)
    and [end] = (55,0). *)
Theorem single_edge_A_B (getLargestAngularSpace : Point -> list Point -> R)
        (options : GraphOptions) :
  getValue (nodeSize options) nodeB = 35 ->
  getEdgeSchematic getLargestAngularSpace edgeAB [nodeA; nodeB] [edgeAB] options =
  Some (Straight {| start := {| x := 0; y := 0 |};
                    end_ := {| x := 55; y := 0 |};
                    color := Some (getValue (edgeColor options) edgeAB);
                    width := getValue (edgeWidth options) edgeAB |}).
Proof.
  intros Hsize.
  rewrite (getEdgeSchematic_straight getLargestAngularSpace [nodeA; nodeB] [edgeAB]
             options integrity_one edgeAB (mkNodeRef 0 nodeA) (mkNodeRef 1 nodeB)
             eq_refl eq_refl).
  change (isBidirectional (mkNodeRef 0 nodeA) (mkNodeRef 1 nodeB) [edgeAB]) with false.
  cbn [obj sideways]. rewrite edgeAngle_A_B, cos_0, sin_0, Hsize.
  unfold nodeA, nodeB, position. cbn [nx ny].
  do 2 f_equal. f_equal. f_equal; ring.
Qed.

(** [single_edge_A_B] with the constant node size 35. *)
Lemma single_edge_witness :
  getEdgeSchematic largestAngularSpaceOfSpec edgeAB [nodeA; nodeB] [edgeAB] options35 =
  Some (Straight {| start := {| x := 0; y := 0 |};
                    end_ := {| x := 55; y := 0 |};
                    color := Some "black"%string;
                    width := 10 |}).
Proof.
  apply (single_edge_A_B largestAngularSpaceOfSpec options35). reflexivity.
Defined.

End SampleFacts.

Section SampleStraightFacts.
Import Shapes Schematics Sample.

(** [straight_end_pulled_back] on the single edge from A to B. *)
Lemma straight_end_witness :
  exists edgeLine,
    getEdgeSchematic largestAngularSpaceOfSpec edgeAB [nodeA; nodeB] [edgeAB] options35 =
    Some (Straight edgeLine) /\
    dist (end_ edgeLine) (position nodeB) = Rabs (35 + 10).
Proof.
  destruct (straight_end_pulled_back largestAngularSpaceOfSpec [nodeA; nodeB] [edgeAB]
              options35 integrity_one edgeAB (mkNodeRef 0 nodeA) (mkNodeRef 1 nodeB)
              eq_refl eq_refl) as (edgeLine & Hs & Hno & _).
  exists edgeLine. split; [exact Hs |].
  apply Hno. intros e [<- | []] [E _]. discriminate E.
Defined.

(** The schematic of the edge from A to B once the edge from B to A is in
    the collection. *)
Lemma pair_edge_A_B (getLargestAngularSpace : Point -> list Point -> R) :
  getEdgeSchematic getLargestAngularSpace edgeAB [nodeA; nodeB] [edgeAB; edgeBA] options35 =
  Some (Straight {| start := {| x := 0; y := 12 |};
                    end_ := {| x := 55; y := 12 |};
                    color := Some "black"%string;
                    width := 10 |}).
Proof.
  rewrite (getEdgeSchematic_straight getLargestAngularSpace [nodeA; nodeB] [edgeAB; edgeBA]
             options35 integrity_pair edgeAB (mkNodeRef 0 nodeA) (mkNodeRef 1 nodeB)
             eq_refl eq_refl).
  change (isBidirectional (mkNodeRef 0 nodeA) (mkNodeRef 1 nodeB) [edgeAB; edgeBA])
    with true.
  cbn [obj]. rewrite edgeAngle_A_B, !sideways_from_zero, cos_0, sin_0.
  unfold options35, nodeA, nodeB, position.
  cbn [getValue nodeSize edgeColor edgeWidth nx ny x y].
  do 2 f_equal. f_equal; f_equal; ring.
Qed.

Lemma pair_edge_B_A (getLargestAngularSpace : Point -> list Point -> R) :
  getEdgeSchematic getLargestAngularSpace edgeBA [nodeA; nodeB] [edgeAB; edgeBA] options35 =
  Some (Straight {| start := {| x := 100; y := -12 |};
                    end_ := {| x := 45; y := -12 |};
                    color := Some "black"%string;
                    width := 10 |}).
Proof.
  rewrite (getEdgeSchematic_straight getLargestAngularSpace [nodeA; nodeB] [edgeAB; edgeBA]
             options35 integrity_pair edgeBA (mkNodeRef 1 nodeB) (mkNodeRef 0 nodeA)
             eq_refl eq_refl).
  change (isBidirectional (mkNodeRef 1 nodeB) (mkNodeRef 0 nodeA) [edgeAB; edgeBA])
    with true.
  cbn [obj]. rewrite edgeAngle_B_A. unfold sideways, lineSpacing.
  rewrite cos_quarter, sin_quarter, cos_PI, sin_PI.
  unfold options35, nodeA, nodeB, position.
  cbn [getValue nodeSize edgeColor edgeWidth nx ny x y].
  do 2 f_equal. f_equal; f_equal; ring.
Qed.

(** C1, counterexample: with the reverse edge from B to A in the
    collection, the [end] of the edge from A to B is (55,12): it is not
    45 away from B at (100,0), and it is not on the line from [start] to
    B. *)
Lemma reverse_edge_moves_end_off_line :
  exists edgeLine,
    getEdgeSchematic largestAngularSpaceOfSpec edgeAB [nodeA; nodeB] [edgeAB; edgeBA]
                     options35 = Some (Straight edgeLine) /\
    dist (end_ edgeLine) (position nodeB) <> 35 + 10 /\
    forall s, end_ edgeLine <>
              along {| start := start edgeLine; end_ := position nodeB;
                       color := None; width := 0 |} s.
Proof.
  eexists. split; [apply pair_edge_A_B |]. cbn [start end_]. split.
  - unfold dist, nodeB, position. cbn [x y nx ny]. intros E.
    assert (Hs : sqrt ((100 - 55) * (100 - 55) + (0 - 12) * (0 - 12)) *
                 sqrt ((100 - 55) * (100 - 55) + (0 - 12) * (0 - 12)) =
                 (100 - 55) * (100 - 55) + (0 - 12) * (0 - 12))
      by (apply sqrt_sqrt; lra).
    rewrite E in Hs. lra.
  - intros s E. unfold along, nodeB, position in E. cbn [start end_ x y nx ny] in E.
    inversion E as [[Ex Ey]]. nra.
Qed.

(** [bidirectional_lanes_oppose] on the pair of edges between A and B. *)
Lemma bidirectional_lanes_witness :
  isBidirectional (mkNodeRef 0 nodeA) (mkNodeRef 1 nodeB) [edgeAB; edgeBA] = true /\
  isBidirectional (mkNodeRef 1 nodeB) (mkNodeRef 0 nodeA) [edgeAB; edgeBA] = true.
Proof.
  pose proof (bidirectional_lanes_oppose largestAngularSpaceOfSpec [nodeA; nodeB]
                [edgeAB; edgeBA] options35 integrity_pair edgeAB edgeBA
                (mkNodeRef 0 nodeA) (mkNodeRef 1 nodeB)
                (or_introl eq_refl) (or_intror (or_introl eq_refl))
                eq_refl eq_refl eq_refl positions_A_B) as H.
  cbv zeta in H. destruct H as (F1 & F2 & _). split; assumption.
Defined.

(** The two nodes on the same spot: both edges of the pair get the same
    angle [Math.atan2(0, 0)], hence the same lane. *)
Lemma onA_edge_A_B (getLargestAngularSpace : Point -> list Point -> R) :
  getEdgeSchematic getLargestAngularSpace edgeAB [nodeA; nodeB_onA] [edgeAB; edgeBA]
                   options35 =
  Some (Straight {| start := {| x := 0; y := 12 |};
                    end_ := {| x := -45; y := 12 |};
                    color := Some "black"%string;
                    width := 10 |}).
Proof.
  rewrite (getEdgeSchematic_straight getLargestAngularSpace [nodeA; nodeB_onA]
             [edgeAB; edgeBA] options35 integrity_pair_onA edgeAB
             (mkNodeRef 0 nodeA) (mkNodeRef 1 nodeB_onA) eq_refl eq_refl).
  change (isBidirectional (mkNodeRef 0 nodeA) (mkNodeRef 1 nodeB_onA) [edgeAB; edgeBA])
    with true.
  cbn [obj]. rewrite (edgeAngle_same_position nodeA nodeB_onA eq_refl).
  rewrite !sideways_from_zero, cos_0, sin_0.
  unfold options35, nodeA, nodeB_onA, position.
  cbn [getValue nodeSize edgeColor edgeWidth nx ny x y].
  do 2 f_equal. f_equal; f_equal; ring.
Qed.

Lemma onA_edge_B_A (getLargestAngularSpace : Point -> list Point -> R) :
  getEdgeSchematic getLargestAngularSpace edgeBA [nodeA; nodeB_onA] [edgeAB; edgeBA]
                   options35 =
  Some (Straight {| start := {| x := 0; y := 12 |};
                    end_ := {| x := -45; y := 12 |};
                    color := Some "black"%string;
                    width := 10 |}).
Proof.
  rewrite (getEdgeSchematic_straight getLargestAngularSpace [nodeA; nodeB_onA]
             [edgeAB; edgeBA] options35 integrity_pair_onA edgeBA
             (mkNodeRef 1 nodeB_onA) (mkNodeRef 0 nodeA) eq_refl eq_refl).
  change (isBidirectional (mkNodeRef 1 nodeB_onA) (mkNodeRef 0 nodeA) [edgeAB; edgeBA])
    with true.
  cbn [obj]. rewrite (edgeAngle_same_position nodeB_onA nodeA eq_refl).
  rewrite !sideways_from_zero, cos_0, sin_0.
  unfold options35, nodeA, nodeB_onA, position.
  cbn [getValue nodeSize edgeColor edgeWidth nx ny x y].
  do 2 f_equal. f_equal; f_equal; ring.
Qed.

(** C6, counterexample: A and B are two nodes, both at (0,0), with both
    edges in the collection; the two Straight forms are the same line, so
    the two lanes are moved to the same side and coincide at every point. *)
Lemma coincident_nodes_share_lane :
  same_object (mkNodeRef 0 nodeA) (mkNodeRef 1 nodeB_onA) = false /\
  exists lane1 lane2,
    getEdgeSchematic largestAngularSpaceOfSpec edgeAB [nodeA; nodeB_onA]
                     [edgeAB; edgeBA] options35 = Some (Straight lane1) /\
    getEdgeSchematic largestAngularSpaceOfSpec edgeBA [nodeA; nodeB_onA]
                     [edgeAB; edgeBA] options35 = Some (Straight lane2) /\
    start lane1 = start lane2 /\ end_ lane1 = end_ lane2 /\
    forall s, along lane1 s = along lane2 s.
Proof.
  split; [reflexivity |].
  eexists. eexists.
  split; [apply onA_edge_A_B |]. split; [apply onA_edge_B_A |].
  repeat split; reflexivity.
Qed.

End SampleStraightFacts.

(** ** The angle of an edge and of its reverse *)

Section AngleFacts.
Import Shapes Schematics Sample.

Lemma edgeAngle_reverse_half_turn (a b : GNode) :
  position a <> position b ->
  edgeAngle a b - edgeAngle b a = PI \/ edgeAngle a b - edgeAngle b a = - PI.
Proof.
  intros H. unfold edgeAngle.
  replace (ny a - ny b) with (- (ny b - ny a)) by ring.
  replace (nx a - nx b) with (- (nx b - nx a)) by ring.
  apply atan2_opp. exact (points_differ (position a) (position b) H).
Qed.

(** C8: for two points that differ, the angle from the first to the second
    and the angle from the second to the first differ by PI or by -PI,
    that is by PI up to a multiple of 2 PI. *)
Theorem edgeAngle_reverse (a b : GNode) :
  position a <> position b ->
  (edgeAngle a b - edgeAngle b a = PI \/ edgeAngle a b - edgeAngle b a = - PI) /\
  exists k : Z, edgeAngle a b - edgeAngle b a = PI + 2 * IZR k * PI.
Proof.
  intros H. pose proof (edgeAngle_reverse_half_turn a b H) as D.
  split; [exact D |].
  destruct D as [D | D]; rewrite D.
  - exists 0%Z. ring.
  - exists (-1)%Z. ring.
Qed.

(** [edgeAngle_reverse] on the nodes A and B. *)
Lemma edgeAngle_reverse_witness :
  exists k : Z, edgeAngle nodeA nodeB - edgeAngle nodeB nodeA = PI + 2 * IZR k * PI.
Proof.
  exact (proj2 (edgeAngle_reverse nodeA nodeB positions_A_B)).
Defined.

End AngleFacts.

(** ** The bidirectional test and the origin of a self-loop *)

Section BidirectionalFacts.
Import Shapes Schematics Sample.

(** C3, as amended: an edge is flagged bidirectional exactly when the edge
    collection contains an edge whose (from, to) pair is the reverse of its
    own pair.  For an edge between two different labels that edge is another
    edge than the edge itself, and no third edge is needed. *)
Theorem bidirectional_iff_reverse_pair (edge : GEdge) (nodes : list GNode)
        (edges : list GEdge) (fromN toN : NodeRef) :
  getFromToNodes edge nodes = Some (fromN, toN) ->
  (isBidirectional fromN toN edges = true <->
   exists e, In e edges /\ from e = to edge /\ to e = from edge) /\
  (from edge <> to edge ->
   (isBidirectional fromN toN edges = true <->
    exists e, In e edges /\ e <> edge /\ from e = to edge /\ to e = from edge)).
Proof.
  intros H. split; [apply (isBidirectional_iff _ _ _ _ _ H) |].
  intros Hne. rewrite (isBidirectional_iff _ _ _ _ _ H).
  split; intros (e & Hin & He).
  - exists e. split; [exact Hin |]. split; [| exact He].
    intros E. subst e. destruct He as [He _]. exact (Hne He).
  - exists e. tauto.
Qed.

(** [bidirectional_iff_reverse_pair] on the edge from A to B, with the edge
    from B to A in the collection. *)
Lemma bidirectional_iff_witness :
  isBidirectional (mkNodeRef 0 nodeA) (mkNodeRef 1 nodeB) [edgeAB; edgeBA] = true <->
  exists e, In e [edgeAB; edgeBA] /\ e <> edgeAB /\ from e = to edgeAB /\ to e = from edgeAB.
Proof.
  apply (bidirectional_iff_reverse_pair edgeAB [nodeA; nodeB] [edgeAB; edgeBA]
           (mkNodeRef 0 nodeA) (mkNodeRef 1 nodeB) eq_refl).
  discriminate.
Defined.

(** C3, counterexample: the collection holds the self-loop edge on A and no
    other edge; the edge is flagged bidirectional, by matching itself. *)
Lemma self_loop_flagged_by_itself :
  getFromToNodes edgeAA [nodeA] = Some (mkNodeRef 0 nodeA, mkNodeRef 0 nodeA) /\
  isBidirectional (mkNodeRef 0 nodeA) (mkNodeRef 0 nodeA) [edgeAA] = true /\
  ~ (exists e, In e [edgeAA] /\ e <> edgeAA /\
               from e = to edgeAA /\ to e = from edgeAA).
Proof.
  split; [reflexivity |]. split; [reflexivity |].
  intros (e & [<- | []] & Hne & _). apply Hne. reflexivity.
Qed.

Lemma getAngle_moved_origin : getAngle {| x := 0; y := 12 |} (position nodeC) = 0.
Proof.
  unfold getAngle, nodeC, position. cbn [x y nx ny].
  rewrite Rminus_diag. apply atan2_right. lra.
Qed.

Lemma getAngle_node_origin : getAngle (position nodeA) (position nodeC) = PI / 4.
Proof.
  unfold getAngle, nodeA, nodeC, position. cbn [x y nx ny].
  rewrite atan2_pos_x by lra.
  replace ((12 - 0) / (12 - 0)) with 1 by (field; lra). apply atan_1.
Qed.

(** C2, on the code: node A at (0,0) with a self-loop and an edge to C at
    (12,12).  The loop is centred on A, but its angle is the largest
    angular space seen from (0,12), which is PI; seen from A itself it is
    5 PI / 4. *)
Theorem self_loop_angle_from_moved_origin :
  exists loop,
    getEdgeSchematic largestAngularSpaceOfSpec edgeAA [nodeA; nodeC] [edgeAA; edgeAC]
                     options35 = Some (SelfLoop loop) /\
    center loop = position nodeA /\
    angle loop = largestAngularSpaceOfSpec {| x := 0; y := 12 |} [position nodeC] /\
    angle loop = PI /\
    largestAngularSpaceOfSpec (position nodeA) [position nodeC] = 5 * PI / 4 /\
    angle loop <> largestAngularSpaceOfSpec (position nodeA) [position nodeC].
Proof.
  eexists. split.
  - apply (getEdgeSchematic_self_loop largestAngularSpaceOfSpec edgeAA [nodeA; nodeC]
             [edgeAA; edgeAC] options35 (mkNodeRef 0 nodeA) (mkNodeRef 0 nodeA)
             [position nodeC] eq_refl eq_refl (or_introl eq_refl) eq_refl).
  - assert (Ho : {| x := nx nodeA; y := ny nodeA + 12 |} = {| x := 0; y := 12 |})
      by (unfold nodeA; cbn [nx ny]; f_equal; ring).
    cbn [center angle obj]. rewrite Ho.
    rewrite !largestAngularSpaceOfSpec_one, getAngle_moved_origin, getAngle_node_origin.
    pose proof PI_RGT_0 as Hpi.
    repeat split; try reflexivity; try lra.
Qed.

End BidirectionalFacts.


(* ================================================================== *)
(** * Further properties of the sources                                *)
(* ================================================================== *)

(** ** The basic graph store: lookups, moves and edge removal *)

Section StoreLookupFacts.
Import UseGraph.

Lemma find_app {A} (p : A -> bool) (l1 l2 : list A) :
  find p (l1 ++ l2) = match find p l1 with Some a => Some a | None => find p l2 end.
Proof.
  induction l1 as [| a l1 IH]; simpl; [reflexivity |].
  destruct (p a); [reflexivity | exact IH].
Qed.

Lemma ids_moveFirst (i : Z) (x' y' : R) (l : list Node) :
  map id (moveFirst i x' y' l) = map id l.
Proof.
  induction l as [| n l IH]; simpl; [reflexivity |].
  destruct (Z.eqb (id n) i); simpl; [reflexivity | rewrite IH; reflexivity].
Qed.

Lemma find_moveFirst_same (i : Z) (x' y' : R) (l : list Node) :
  find (fun node => Z.eqb (id node) i) (moveFirst i x' y' l) =
  match find (fun node => Z.eqb (id node) i) l with
  | Some _ => Some {| id := i; x := x'; y := y' |}
  | None => None
  end.
Proof.
  induction l as [| n l IH]; simpl; [reflexivity |].
  destruct (Z.eqb_spec (id n) i) as [E | E]; simpl.
  - rewrite E, Z.eqb_refl. reflexivity.
  - destruct (Z.eqb_spec (id n) i); [contradiction | exact IH].
Qed.

Lemma find_moveFirst_other (i j : Z) (x' y' : R) (l : list Node) :
  j <> i ->
  find (fun node => Z.eqb (id node) j) (moveFirst i x' y' l) =
  find (fun node => Z.eqb (id node) j) l.
Proof.
  intros Hj. induction l as [| n l IH]; simpl; [reflexivity |].
  destruct (Z.eqb_spec (id n) i) as [E | E]; simpl.
  - rewrite E. destruct (Z.eqb_spec i j); [congruence | reflexivity].
  - destruct (Z.eqb (id n) j); [reflexivity | exact IH].
Qed.

Lemma moveFirst_absent (i : Z) (x' y' : R) (l : list Node) :
  find (fun node => Z.eqb (id node) i) l = None -> moveFirst i x' y' l = l.
Proof.
  induction l as [| n l IH]; simpl; [reflexivity |].
  destruct (Z.eqb (id n) i); [discriminate |].
  intros H. rewrite (IH H). reflexivity.
Qed.

Lemma moveFirst_first (i : Z) (x' y' : R) (before after : list Node) (n : Node) :
  (forall m, In m before -> id m <> i) -> id n = i ->
  moveFirst i x' y' (before ++ n :: after) =
  before ++ {| id := i; x := x'; y := y' |} :: after.
Proof.
  intros Hb Hn. induction before as [| b before IH]; simpl.
  - rewrite Hn, Z.eqb_refl. reflexivity.
  - destruct (Z.eqb_spec (id b) i) as [E | E].
    + exfalso. apply (Hb b); [left; reflexivity | exact E].
    + f_equal. apply IH. intros m Hm. apply Hb. right. exact Hm.
Qed.

(** X1: [moveNode] changes positions only: the ids, their order and the
    edges stay.  With no node of that id the graph is unchanged; otherwise
    the first node with the id, and no other node, is replaced in place by
    the node at the new position, so [getNode] of the id then answers that
    node and [getNode] of any other id answers as before. *)
Theorem moveNode_moves_one_position (i : Z) (x' y' : R) (g : Graph) :
  ids (moveNode i x' y' g) = ids g /\
  edges (moveNode i x' y' g) = edges g /\
  (getNode i g = None -> moveNode i x' y' g = g) /\
  (forall before n after,
      nodes g = before ++ n :: after ->
      (forall m, In m before -> id m <> i) ->
      id n = i ->
      nodes (moveNode i x' y' g) =
      before ++ {| id := i; x := x'; y := y' |} :: after) /\
  (getNode i g <> None ->
   getNode i (moveNode i x' y' g) = Some {| id := i; x := x'; y := y' |}) /\
  (forall j, j <> i -> getNode j (moveNode i x' y' g) = getNode j g).
Proof.
  split; [apply ids_moveFirst |]. split; [reflexivity |].
  split; [| split; [| split]].
  - intros H. unfold moveNode. rewrite (moveFirst_absent _ _ _ _ H).
    destruct g; reflexivity.
  - intros before n after Hl Hb Hn. unfold moveNode. cbn [nodes].
    rewrite Hl. apply moveFirst_first; assumption.
  - intros H. unfold getNode, moveNode in *. simpl. rewrite find_moveFirst_same.
    destruct (find _ (nodes g)); [reflexivity | contradiction].
  - intros j Hj. unfold getNode, moveNode. simpl. apply find_moveFirst_other. exact Hj.
Qed.

(** [moveNode_moves_one_position] on a graph of two nodes. *)
Lemma moveNode_witness :
  getNode 2 (moveNode 2 5 6 {| nodes := [mkNode 1 0 0; mkNode 2 100 0]; edges := [] |}) =
  Some (mkNode 2 5 6).
Proof.
  apply (moveNode_moves_one_position 2 5 6
           {| nodes := [mkNode 1 0 0; mkNode 2 100 0]; edges := [] |}).
  discriminate.
Defined.

(** X2: looking a node up after [addNode].  A node that [getNode] found
    before is still the one found, also when the new node carries the same
    id; an id not in use before is found exactly when it is the id the new
    node got. *)
Theorem getNode_after_addNode (i : Z) (node : PartialNode) (g : Graph) :
  getNode i (addNode node g) =
  match getNode i g with
  | Some found => Some found
  | None =>
      let stored := id_or (id_opt node) (Z.of_nat (List.length (nodes g)) + 1) in
      if Z.eqb stored i
      then Some {| id := stored;
                   x := JsMath.number_or (x_opt node) 100;
                   y := JsMath.number_or (y_opt node) 100 |}
      else None
  end.
Proof.
  unfold getNode, addNode. simpl. rewrite find_app. simpl.
  destruct (find _ (nodes g)); reflexivity.
Qed.

(** What [removeNode] leaves of the nodes, as a recursion on the array. *)
Lemma removeNode_nodes_cons (i : Z) (n : Node) (l : list Node) (es : list Edge) :
  nodes (removeNode i {| nodes := n :: l; edges := es |}) =
  if Z.eqb (id n) i then l
  else n :: nodes (removeNode i {| nodes := l; edges := es |}).
Proof.
  unfold removeNode. simpl.
  destruct (Z.eqb (id n) i); [reflexivity |].
  set (k := findIndex (fun node => Z.eqb (id node) i) l).
  destruct (findIndex_range (fun node => Z.eqb (id node) i) l) as [Hk | Hk]; fold k in Hk.
  - rewrite Hk. reflexivity.
  - destruct (Z.eqb_spec k (-1)) as [E | E]; [lia |].
    destruct (Z.eqb_spec (k + 1) (-1)) as [E' | E']; [lia |]. simpl.
    replace (Z.to_nat (k + 1)) with (S (Z.to_nat k)) by lia.
    reflexivity.
Qed.

Lemma find_removeNode_other (i j : Z) (l : list Node) (es : list Edge) :
  j <> i ->
  find (fun node => Z.eqb (id node) j) (nodes (removeNode i {| nodes := l; edges := es |})) =
  find (fun node => Z.eqb (id node) j) l.
Proof.
  intros Hj. induction l as [| n l IH]; [reflexivity |].
  rewrite removeNode_nodes_cons.
  destruct (Z.eqb_spec (id n) i) as [E | E]; simpl.
  - destruct (Z.eqb_spec (id n) j); [congruence | reflexivity].
  - destruct (Z.eqb (id n) j); [reflexivity | exact IH].
Qed.

Lemma find_removeNode_same (i : Z) (l : list Node) (es : list Edge) :
  NoDup (map id l) ->
  find (fun node => Z.eqb (id node) i) (nodes (removeNode i {| nodes := l; edges := es |})) =
  None.
Proof.
  intros Hnd. induction l as [| n l IH]; [reflexivity |].
  rewrite removeNode_nodes_cons. simpl in Hnd. inversion Hnd as [| a l' Hnotin Hnd']; subst.
  destruct (Z.eqb_spec (id n) i) as [E | E]; simpl.
  - destruct (find (fun node => Z.eqb (id node) i) l) as [m |] eqn:F; [| reflexivity].
    apply find_some in F. destruct F as [Hin Hid]. apply Z.eqb_eq in Hid.
    exfalso. apply Hnotin. rewrite E, <- Hid. apply in_map. exact Hin.
  - destruct (Z.eqb_spec (id n) i); [contradiction | apply IH; exact Hnd'].
Qed.

(** X3: looking a node up after [removeNode].  Every other id is found as
    before; when the ids are unique the removed id is found no more. *)
Theorem getNode_after_removeNode (i : Z) (g : Graph) :
  (forall j, j <> i -> getNode j (removeNode i g) = getNode j g) /\
  (NoDup (ids g) -> getNode i (removeNode i g) = None).
Proof.
  destruct g as [l es]. split.
  - intros j Hj. apply find_removeNode_other. exact Hj.
  - intros H. apply find_removeNode_same. exact H.
Qed.

(** [getNode_after_removeNode] on a graph of two nodes. *)
Lemma getNode_after_removeNode_witness :
  getNode 1 (removeNode 1 {| nodes := [mkNode 1 0 0; mkNode 2 100 0]; edges := [] |}) = None.
Proof.
  apply (getNode_after_removeNode 1 {| nodes := [mkNode 1 0 0; mkNode 2 100 0]; edges := [] |}).
  unfold ids. simpl.
  constructor; [intros [H | []]; discriminate H |].
  constructor; [intros [] | constructor].
Defined.

(** Two nodes with one id: [removeNode] takes the first, [getNode] then
    finds the second. *)
Example getNode_after_removeNode_repeated_id :
  getNode 1 (removeNode 1 {| nodes := [mkNode 1 0 0; mkNode 1 100 0]; edges := [] |}) =
  Some (mkNode 1 100 0).
Proof. reflexivity. Qed.

End StoreLookupFacts.

(** ** The basic graph store: edges and what the operations keep *)

Section StoreEdgeFacts.
Import UseGraph.

Lemma edge_differs (e e' : Edge) :
  e' <> e <-> from e' <> from e \/ to e' <> to e.
Proof.
  destruct e as [t f], e' as [t' f']. simpl. split.
  - intros H. destruct (Z.eq_dec f' f) as [Ef | Ef]; [| left; exact Ef].
    destruct (Z.eq_dec t' t) as [Et | Et]; [| right; exact Et].
    exfalso. apply H. congruence.
  - intros [H | H] E; inversion E; contradiction.
Qed.

Lemma removeEdge_keeps (e e' : Edge) :
  negb (Z.eqb (from e') (from e)) || negb (Z.eqb (to e') (to e)) = true <-> e' <> e.
Proof.
  rewrite edge_differs, orb_true_iff, !negb_true_iff, !Z.eqb_neq. tauto.
Qed.

(** X4: [removeEdge] leaves the nodes alone and takes out every edge with
    the same (from, to) pair, however many there are: what is left is the
    edge list with exactly those edges dropped, the others in their order;
    removing twice is removing once, and an edge that was added is gone
    after its removal together with its earlier copies. *)
Theorem removeEdge_takes_every_copy (e : Edge) (g : Graph) :
  nodes (removeEdge e g) = nodes g /\
  edges (removeEdge e g) =
  filter (fun e' => negb (Z.eqb (from e') (from e) && Z.eqb (to e') (to e))) (edges g) /\
  (forall e', In e' (edges (removeEdge e g)) <-> In e' (edges g) /\ e' <> e) /\
  removeEdge e (removeEdge e g) = removeEdge e g /\
  removeEdge e (addEdge e g) = removeEdge e g /\
  (~ In e (edges g) -> removeEdge e (addEdge e g) = g).
Proof.
  split; [reflexivity |]. split; [| split; [| split; [| split]]].
  - unfold removeEdge. cbn [edges]. apply filter_ext. intros e'.
    rewrite negb_andb. reflexivity.
  - intros e'. unfold removeEdge. simpl. rewrite filter_In, removeEdge_keeps. tauto.
  - unfold removeEdge. simpl. f_equal.
    induction (edges g) as [| a l IH]; simpl; [reflexivity |].
    destruct (negb (Z.eqb (from a) (from e)) || negb (Z.eqb (to a) (to e))) eqn:K; simpl.
    + rewrite K, IH. reflexivity.
    + exact IH.
  - unfold removeEdge, addEdge. simpl. f_equal. rewrite filter_app. simpl.
    rewrite !Z.eqb_refl. simpl. apply app_nil_r.
  - intros Hnot. unfold removeEdge, addEdge. destruct g as [ns es]. simpl in *. f_equal.
    rewrite filter_app. simpl. rewrite !Z.eqb_refl. simpl. rewrite app_nil_r.
    induction es as [| a l IH]; simpl; [reflexivity |].
    assert (Ha : a <> e) by (intros E; apply Hnot; left; exact E).
    rewrite (proj2 (removeEdge_keeps e a) Ha). f_equal.
    apply IH. intros Hin. apply Hnot. right. exact Hin.
Qed.

(** [removeEdge_takes_every_copy]: adding an edge to a graph without it and
    removing it again gives the graph back. *)
Lemma removeEdge_witness :
  removeEdge (mkEdge 2 1)
    (addEdge (mkEdge 2 1) {| nodes := [mkNode 1 0 0; mkNode 2 100 0]; edges := [mkEdge 1 2] |}) =
  {| nodes := [mkNode 1 0 0; mkNode 2 100 0]; edges := [mkEdge 1 2] |}.
Proof.
  apply (removeEdge_takes_every_copy (mkEdge 2 1)
           {| nodes := [mkNode 1 0 0; mkNode 2 100 0]; edges := [mkEdge 1 2] |}).
  simpl. intros [H | []]. discriminate H.
Defined.

Lemma has_id_iff (g : Graph) (k : Z) :
  (exists n, In n (nodes g) /\ id n = k) <-> In k (ids g).
Proof.
  unfold ids. rewrite in_map_iff. split; intros (n & A & B); exists n; auto.
Qed.

(** [integral] reads the ids and the edges only. *)
Lemma integral_by_ids (g g' : Graph) :
  ids g' = ids g -> edges g' = edges g -> integral g -> integral g'.
Proof.
  intros Hi He H e Hin. rewrite He in Hin. destruct (H e Hin) as [A B].
  rewrite !has_id_iff in *. rewrite Hi. auto.
Qed.

(** A node with another id than the removed one stays. *)
Lemma removeNode_keeps_other_nodes (i : Z) (l : list Node) (es : list Edge) (n : Node) :
  In n l -> id n <> i -> In n (nodes (removeNode i {| nodes := l; edges := es |})).
Proof.
  intros Hin Hid. induction l as [| a l IH]; [contradiction |].
  rewrite removeNode_nodes_cons.
  destruct (Z.eqb_spec (id a) i) as [E | E].
  - destruct Hin as [-> | Hin]; [contradiction | exact Hin].
  - destruct Hin as [-> | Hin]; [left; reflexivity | right; apply IH; exact Hin].
Qed.

(** X5: referential integrity (every edge names two nodes of the graph) is
    kept by [addNode], [removeNode], [moveNode] and [removeEdge]; [addEdge]
    keeps it exactly when both ids of the new edge are ids of nodes. *)
Theorem integrity_kept (g : Graph) :
  integral g ->
  (forall node, integral (addNode node g)) /\
  (forall i, integral (removeNode i g)) /\
  (forall i x' y', integral (moveNode i x' y' g)) /\
  (forall e, integral (removeEdge e g)) /\
  (forall e, integral (addEdge e g) <-> In (from e) (ids g) /\ In (to e) (ids g)).
Proof.
  intros H. split; [| split; [| split; [| split]]].
  - intros node e Hin. destruct (H e Hin) as [(a & Ha & Ea) (b & Hb & Eb)].
    split; [exists a | exists b]; (split; [simpl; apply in_or_app; left; assumption | assumption]).
  - intros i e Hin.
    assert (He : In e (edges g) /\ from e <> i /\ to e <> i).
    { unfold removeNode in Hin. simpl in Hin. apply filter_In in Hin.
      destruct Hin as [Hin K]. apply andb_true_iff in K. destruct K as [K1 K2].
      apply negb_true_iff, Z.eqb_neq in K1. apply negb_true_iff, Z.eqb_neq in K2. auto. }
    destruct He as (Hin' & Hf & Ht).
    destruct (H e Hin') as [(a & Ha & Ea) (b & Hb & Eb)].
    destruct g as [l es]. cbn [nodes edges] in Ha, Hb.
    split; [exists a | exists b];
      (split; [apply (removeNode_keeps_other_nodes i l es); [assumption | congruence]
              | assumption]).
  - intros i x' y'. apply (integral_by_ids g); [apply ids_moveFirst | reflexivity | exact H].
  - intros e e' Hin. apply (H e').
    unfold removeEdge in Hin. simpl in Hin. apply filter_In in Hin. tauto.
  - intros e. split.
    + intros K. destruct (K e) as [A B]; [simpl; apply in_or_app; right; left; reflexivity |].
      rewrite <- !has_id_iff. simpl in A, B. auto.
    + intros [A B] e' Hin. simpl in Hin. apply in_app_or in Hin.
      destruct Hin as [Hin | [<- | []]].
      * exact (H e' Hin).
      * rewrite <- !has_id_iff in A, B. simpl. auto.
Qed.

(** [integrity_kept] on a graph of two nodes joined by an edge. *)
Lemma integrity_kept_witness :
  integral (removeNode 2 {| nodes := [mkNode 1 0 0; mkNode 2 100 0]; edges := [mkEdge 2 1] |}).
Proof.
  apply (integrity_kept {| nodes := [mkNode 1 0 0; mkNode 2 100 0]; edges := [mkEdge 2 1] |}).
  intros e [<- | []]. simpl. split.
  - exists (mkNode 1 0 0). split; [left; reflexivity | reflexivity].
  - exists (mkNode 2 100 0). split; [right; left; reflexivity | reflexivity].
Defined.

(** X6: [addNode] keeps the ids unique exactly when the id it stores, the
    given one or, for none or 0, the array length plus one, is not in
    use. *)
Theorem addNode_unique_iff_fresh (node : PartialNode) (g : Graph) :
  NoDup (ids (addNode node g)) <->
  NoDup (ids g) /\
  ~ In (id_or (id_opt node) (Z.of_nat (List.length (nodes g)) + 1)) (ids g).
Proof.
  unfold ids, addNode. simpl. rewrite map_app. simpl.
  set (k := id_or (id_opt node) (Z.of_nat (List.length (nodes g)) + 1)).
  split.
  - intros H. split.
    + apply NoDup_remove_1 in H. rewrite app_nil_r in H. exact H.
    + apply NoDup_remove_2 in H. rewrite app_nil_r in H. exact H.
  - intros [H1 H2]. apply NoDup_Add with (a := k) (l := map id (nodes g) ++ []).
    + apply Add_app.
    + rewrite app_nil_r. auto.
Qed.




End StoreEdgeFacts.

(** A double click on the left border asks for x = 0 and gets x = 100. *)
Example dblclick_on_left_border :
  UseGraph.nodes (UseGraph.dblclick (UseGraph.mkMouseEvent 0 50) UseGraph.empty) =
  [UseGraph.mkNode 1 100 50].
Proof.
  unfold UseGraph.dblclick, UseGraph.addNode, JsMath.number_or. simpl.
  destruct (Req_dec_T 0 0) as [_ | H]; [| exfalso; apply H; reflexivity].
  destruct (Req_dec_T 50 0) as [H | _]; [exfalso; lra | reflexivity].
Qed.

(** ** The basic graph store: the hit test and the drag handlers *)

Section DragFacts.
Import UseGraph.

Variable options : GraphOptions.

Lemma sqrt_sum_squares_zero (a b : R) : sqrt ((a - a) ^ 2 + (b - b) ^ 2) = 0.
Proof.
  replace ((a - a) ^ 2 + (b - b) ^ 2) with 0 by ring. apply sqrt_0.
Qed.



End DragFacts.

Section DragSessionFacts.
Import UseGraph.

Variable options : GraphOptions.


Lemma handle_keeps_ids_edges (st : Dragging) (m : Mouse) :
  ids (graph (handle options st m)) = ids (graph st) /\
  edges (graph (handle options st m)) = edges (graph st).
Proof.
  destruct m as [ev | | ev]; simpl.
  - unfold beginDrag. destruct (getNodeByCoordinates _ _ _ _); auto.
  - auto.
  - unfold drag. destruct (nodeBeingDragged st); [| auto].
    simpl. split; [apply ids_moveFirst | reflexivity].
Qed.

(** X9: whatever the sequence of mouse-down, mouse-move and mouse-up events,
    the drag handlers change positions only: the ids of the nodes, their
    order and the edges are as before. *)
Theorem dragging_keeps_ids_and_edges (ms : list Mouse) (st : Dragging) :
  ids (graph (handleAll options ms st)) = ids (graph st) /\
  edges (graph (handleAll options ms st)) = edges (graph st).
Proof.
  revert st. induction ms as [| m ms IH]; intros st; simpl; [auto |].
  destruct (IH (handle options st m)) as [A B].
  destruct (handle_keeps_ids_edges st m) as [C D].
  split; congruence.
Qed.

Lemma endDrag_released (st : Dragging) : nodeBeingDragged (endDrag st) = None.
Proof. reflexivity. Qed.

(** X10: after a mouse-up, mouse-move events change nothing until the next
    mouse-down: the graph is the one at the release and no node is being
    dragged. *)
Theorem released_pointer_moves_nothing (evs : list MouseEvent) (st : Dragging) :
  handleAll options (MouseUp :: map MouseMove evs) st = endDrag st.
Proof.
  simpl. generalize (endDrag_released st). generalize (endDrag st). clear st.
  induction evs as [| ev evs IH]; intros st H; simpl; [reflexivity |].
  replace (drag ev st) with st by (unfold drag; rewrite H; reflexivity).
  apply IH. exact H.
Qed.

End DragSessionFacts.

Section PressMoveFacts.
Import UseGraph.

Variable options : GraphOptions.

(** X11: a press that hits a node followed by a move puts a node with the
    hit node's id at the pointer: [getNode] of that id answers the pointer
    position, and every other id is found as before.  The node that moves
    is the first one with that id. *)
Theorem press_then_move_carries_node (down move : MouseEvent) (st : Dragging) (n : Node) :
  getNodeByCoordinates options (offsetX down) (offsetY down) (graph st) = Some n ->
  let st' := handleAll options [MouseDown down; MouseMove move] st in
  nodeBeingDragged st' = Some n /\
  getNode (id n) (graph st') =
  Some {| id := id n; x := offsetX move; y := offsetY move |} /\
  (forall j, j <> id n -> getNode j (graph st') = getNode j (graph st)).
Proof.
  intros Hhit. simpl. unfold beginDrag. rewrite Hhit. unfold drag. simpl.
  split; [reflexivity |]. split.
  - unfold getNode, moveNode. simpl. rewrite find_moveFirst_same.
    destruct (find (fun node => Z.eqb (id node) (id n)) (nodes (graph st))) eqn:F;
      [reflexivity |].
    unfold getNodeByCoordinates in Hhit. apply find_some in Hhit.
    pose proof (find_none _ _ F n (proj1 Hhit)) as K. simpl in K.
    rewrite Z.eqb_refl in K. discriminate.
  - intros j Hj. unfold getNode, moveNode. simpl. apply find_moveFirst_other. exact Hj.
Qed.

End PressMoveFacts.

Section PressMoveSample.
Import UseGraph.

Lemma hit_at_origin :
  getNodeByCoordinates defaultOptions 0 0
    {| nodes := [mkNode 1 0 0; mkNode 2 100 0]; edges := [] |} = Some (mkNode 1 0 0).
Proof.
  unfold getNodeByCoordinates. cbn [find nodes x y].
  rewrite sqrt_sum_squares_zero.
  destruct (Rlt_dec 0 (nodeSize defaultOptions)) as [_ | H]; [reflexivity |].
  exfalso. apply H. simpl. lra.
Qed.

(** [press_then_move_carries_node]: node 1 pressed at (0,0) and moved to
    (40,50). *)
Lemma press_then_move_witness :
  getNode 1
    (graph (handleAll defaultOptions
              [MouseDown (mkMouseEvent 0 0); MouseMove (mkMouseEvent 40 50)]
              {| graph := {| nodes := [mkNode 1 0 0; mkNode 2 100 0]; edges := [] |};
                 nodeBeingDragged := None |})) =
  Some (mkNode 1 40 50).
Proof.
  exact (proj1 (proj2 (press_then_move_carries_node defaultOptions
                         (mkMouseEvent 0 0) (mkMouseEvent 40 50)
                         {| graph := {| nodes := [mkNode 1 0 0; mkNode 2 100 0]; edges := [] |};
                            nodeBeingDragged := None |}
                         (mkNode 1 0 0) hit_at_origin))).
Defined.

End PressMoveSample.

(** ** The basic graph store: what the redraw paints, and in which order *)

Section RedrawOrderFacts.
Import Canvas UseGraph.

Variable canvas : CanvasElement.
Variable options : GraphOptions.

Lemma emits_forEach {A} (f : A -> Draw unit) (trace : A -> list CtxOp) (l : list A) :
  (forall a, emits (f a) (trace a)) -> emits (forEach l f) (flat_map trace l).
Proof.
  intros Hf. induction l as [| a l IH]; intros ctx; simpl.
  - unfold ret. rewrite app_nil_r. reflexivity.
  - unfold bind. rewrite (Hf a ctx), (IH (ctx ++ trace a)), app_assoc. reflexivity.
Qed.

(** The calls of [drawNode]. *)
Lemma emits_drawNode (node : Node) :
  emits (drawNode options node)
        [ BeginPath;
          Arc (x node) (y node) (nodeSize options) 0 (PI * 2) false;
          SetFillStyle (nodeColor options); Fill;
          SetStrokeStyle (nodeBorderColor options);
          SetLineWidth (nodeBorderSize options); Stroke; ClosePath;
          SetFont "bold" (nodeTextSize options) "Arial";
          SetFillStyle (nodeTextColor options);
          SetTextAlign "center"; SetTextBaseline "middle";
          FillText (nodeText options node) (x node) (y node) ].
Proof.
  intros ctx. unfold drawNode, bind, call. simpl.
  rewrite <- !app_assoc. reflexivity.
Qed.

(** The calls of [drawEdge]: none for a dangling edge, one stroked line
    between the first nodes with the two ids otherwise. *)
Lemma emits_drawEdge (g : Graph) (edge : Edge) :
  emits (drawEdge options g edge)
        (match getNode (from edge) g, getNode (to edge) g with
         | Some f, Some t =>
             [ BeginPath; MoveTo (x f) (y f); LineTo (x t) (y t);
               SetStrokeStyle (edgeColor options); SetLineWidth (edgeWidth options);
               Stroke; ClosePath ]
         | _, _ => []
         end).
Proof.
  intros ctx. unfold drawEdge, getNode.
  destruct (find _ (nodes g)) as [f |]; simpl;
    [| unfold ret; rewrite app_nil_r; reflexivity].
  destruct (find _ (nodes g)) as [t |]; simpl;
    [| unfold ret; rewrite app_nil_r; reflexivity].
  unfold bind, call, prop, ret. simpl. rewrite <- !app_assoc. reflexivity.
Qed.

Lemma getNode_resolves (g : Graph) (edge : Edge) :
  resolves g edge = true <->
  getNode (from edge) g <> None /\ getNode (to edge) g <> None.
Proof.
  unfold resolves, getNode. rewrite andb_true_iff, !existsb_exists.
  assert (E : forall i, (exists n, In n (nodes g) /\ Z.eqb (id n) i = true) <->
                        find (fun node => Z.eqb (id node) i) (nodes g) <> None).
  { intros i. split.
    - intros (n & Hin & Hid) F. pose proof (find_none _ _ F n Hin) as K.
      simpl in K. congruence.
    - intros F. destruct (find _ (nodes g)) as [n |] eqn:Fn; [| contradiction].
      apply find_some in Fn. exists n. exact Fn. }
  rewrite !E. tauto.
Qed.

(** X12: [draw] first clears the canvas, then makes the calls for the edges
    and after them the calls for the nodes, so that no edge is painted over
    a node: seven calls for every edge that resolves and none for a
    dangling one, with no fill, arc or text among them, and thirteen calls
    for every node, with no [moveTo] or [lineTo] among them. *)
Theorem draw_paints_edges_then_nodes (g : Graph) (ctx : Ctx) :
  exists below above,
    draw canvas options g ctx =
    (Returned tt,
     ctx ++ ClearRect 0 0 (width canvas) (height canvas) :: below ++ above) /\
    forallb (fun op => negb (nodeOnly op)) below = true /\
    forallb (fun op => negb (edgeOnly op)) above = true /\
    List.length below = (7 * List.length (filter (resolves g) (edges g)))%nat /\
    List.length above = (13 * List.length (nodes g))%nat.
Proof.
  pose proof (emits_forEach (drawEdge options g) _ (edges g) (emits_drawEdge g)) as He.
  pose proof (emits_forEach (drawNode options) _ (nodes g) emits_drawNode) as Hn.
  match type of He with emits _ ?t => exists t end.
  match type of Hn with emits _ ?t => exists t end.
  split; [| split; [| split; [| split]]].
  - unfold draw, bind, call. rewrite He, Hn.
    rewrite <- app_assoc. rewrite <- app_assoc. reflexivity.
  - clear He Hn. induction (edges g) as [| e l IH]; [reflexivity |].
    simpl. rewrite forallb_app, IH, andb_true_r.
    destruct (getNode (from e) g); [| reflexivity].
    destruct (getNode (to e) g); reflexivity.
  - clear He Hn. induction (nodes g) as [| n l IH]; [reflexivity |].
    simpl. exact IH.
  - clear He Hn. induction (edges g) as [| e l IH]; [reflexivity |].
    simpl. rewrite length_app, IH.
    destruct (resolves g e) eqn:R.
    + apply getNode_resolves in R. destruct R as [Rf Rt].
      destruct (getNode (from e) g); [| contradiction].
      destruct (getNode (to e) g); [| contradiction].
      simpl. lia.
    + destruct (getNode (from e) g) eqn:Gf; [| reflexivity].
      destruct (getNode (to e) g) eqn:Gt; [| reflexivity].
      assert (resolves g e = true) by (apply getNode_resolves; rewrite Gf, Gt; split; discriminate).
      congruence.
  - clear He Hn. induction (nodes g) as [| n l IH]; [reflexivity |].
    simpl. simpl in IH. rewrite IH. lia.
Qed.

End RedrawOrderFacts.

(** ** [drawArrowWithCtx] on every line *)

Section ArrowShapeFacts.
Import Shapes Canvas Draw.

Lemma dist_from_square (p q : Point) (r : R) :
  0 <= r ->
  (x q - x p) * (x q - x p) + (y q - y p) * (y q - y p) = r * r ->
  dist p q = r.
Proof.
  intros Hr E. unfold dist. rewrite E. apply sqrt_square. exact Hr.
Qed.

Lemma dist_from_abs (p q : Point) (r : R) :
  (x q - x p) * (x q - x p) + (y q - y p) * (y q - y p) = r * r ->
  dist p q = Rabs r.
Proof.
  intros E. unfold dist. rewrite E. change (r * r) with (Rsqr r). apply sqrt_Rsqr_abs.
Qed.

Lemma dist_same (p : Point) : dist p p = 0.
Proof. apply dist_from_square; [lra | ring]. Qed.

(** The calls of [drawArrowWithCtx], with the angle the drawer computes. *)
Lemma drawArrow_trace (options : Line) (ctx : Ctx) :
  let a := JsMath.atan2 (y (end_ options) - y (start options))
                        (x (end_ options) - x (start options)) in
  drawArrowWithCtx options ctx =
  (Returned tt,
   ctx ++ [ BeginPath;
            MoveTo (x (start options)) (y (start options));
            LineTo (x (end_ options) - 25 * cos a) (y (end_ options) - 25 * sin a);
            SetStrokeStyle (colorOr (color options));
            SetLineWidth (width options);
            Stroke;
            ClosePath;
            BeginPath;
            MoveTo (x (end_ options)) (y (end_ options));
            LineTo (x (end_ options) - 25 * cos a - 25 / 1.75 * sin a)
                   (y (end_ options) - 25 * sin a + 25 / 1.75 * cos a);
            LineTo (x (end_ options) - 25 * cos a + 25 / 1.75 * sin a)
                   (y (end_ options) - 25 * sin a - 25 / 1.75 * cos a);
            SetFillStyle (colorOr (color options));
            Fill;
            ClosePath ]).
Proof.
  intros a. unfold drawArrowWithCtx, drawLineWithCtx, drawTriangleWithCtx, bind, call.
  cbn [x y start end_ color width point1 point2 point3 tcolor].
  fold a. rewrite cos_quarter, sin_quarter. rewrite <- !app_assoc. cbn [app].
  replace (x (end_ options) - 25 * cos a + 25 / 1.75 * - sin a)
    with (x (end_ options) - 25 * cos a - 25 / 1.75 * sin a) by ring.
  replace (x (end_ options) - 25 * cos a - 25 / 1.75 * - sin a)
    with (x (end_ options) - 25 * cos a + 25 / 1.75 * sin a) by ring.
  reflexivity.
Qed.

(** X13: for every line, also one whose two ends coincide, the arrow
    drawer strokes a shaft from [start] to a point 25 units from [end] and
    fills a head with its apex at [end]: the shaft is as long as the line is
    longer or shorter than 25, the base of the head has its middle at the
    end of the shaft and is 2 * 25 / 1.75 wide, and the two sides of the
    head are equally long. *)
Theorem drawArrow_head_and_shaft (options : Line) (ctx : Ctx) :
  exists epicenter base1 base2,
    drawArrowWithCtx options ctx =
    (Returned tt,
     ctx ++ [ BeginPath;
              MoveTo (x (start options)) (y (start options));
              LineTo (x epicenter) (y epicenter);
              SetStrokeStyle (colorOr (color options));
              SetLineWidth (width options);
              Stroke;
              ClosePath;
              BeginPath;
              MoveTo (x (end_ options)) (y (end_ options));
              LineTo (x base1) (y base1);
              LineTo (x base2) (y base2);
              SetFillStyle (colorOr (color options));
              Fill;
              ClosePath ]) /\
    dist epicenter (end_ options) = 25 /\
    dist (start options) epicenter = Rabs (dist (start options) (end_ options) - 25) /\
    x epicenter = (x base1 + x base2) / 2 /\
    y epicenter = (y base1 + y base2) / 2 /\
    dist base1 base2 = 2 * (25 / 1.75) /\
    dist (end_ options) base1 = dist (end_ options) base2.
Proof.
  set (a := JsMath.atan2 (y (end_ options) - y (start options))
                         (x (end_ options) - x (start options))).
  pose proof (cos_sin_unit a) as Hu.
  exists {| x := x (end_ options) - 25 * cos a; y := y (end_ options) - 25 * sin a |}.
  exists {| x := x (end_ options) - 25 * cos a - 25 / 1.75 * sin a;
            y := y (end_ options) - 25 * sin a + 25 / 1.75 * cos a |}.
  exists {| x := x (end_ options) - 25 * cos a + 25 / 1.75 * sin a;
            y := y (end_ options) - 25 * sin a - 25 / 1.75 * cos a |}.
  split; [apply drawArrow_trace |].
  split; [| split; [| split; [| split; [| split]]]].
  - rewrite dist_pulled_back by exact Hu. apply Rabs_right. lra.
  - destruct (Req_dec_T (x (end_ options) - x (start options)) 0) as [Ex | Ex];
      [destruct (Req_dec_T (y (end_ options) - y (start options)) 0) as [Ey | Ey] |].
    + (* the two ends coincide *)
      assert (Hd : dist (start options) (end_ options) = 0)
        by (apply dist_from_square; [lra | rewrite Ex, Ey; ring]).
      rewrite Hd. replace (0 - 25) with (- (25)) by ring.
      rewrite Rabs_Ropp. apply dist_from_abs. simpl.
      replace (x (end_ options) - 25 * cos a - x (start options))
        with (x (end_ options) - x (start options) - 25 * cos a) by ring.
      replace (y (end_ options) - 25 * sin a - y (start options))
        with (y (end_ options) - y (start options) - 25 * sin a) by ring.
      rewrite Ex, Ey.
      replace ((0 - 25 * cos a) * (0 - 25 * cos a) + (0 - 25 * sin a) * (0 - 25 * sin a))
        with (25 * 25 * (cos a * cos a + sin a * sin a)) by ring.
      rewrite Hu. ring.
    + assert (Hne : start options <> end_ options)
        by (intros E; apply Ey; rewrite E; ring).
      apply dist_from_abs. simpl. unfold a.
      rewrite (cos_direction _ _ Hne), (sin_direction _ _ Hne).
      destruct (dir_reaches _ _ Hne) as [Hx Hy].
      pose proof (dir_unit _ _ Hne) as Hd.
      set (ux := dirx (start options) (end_ options)) in *.
      set (uy := diry (start options) (end_ options)) in *.
      set (d := dist (start options) (end_ options)) in *.
      rewrite Hx, Hy.
      replace ((x (start options) + d * ux - 25 * ux - x (start options)) *
               (x (start options) + d * ux - 25 * ux - x (start options)) +
               (y (start options) + d * uy - 25 * uy - y (start options)) *
               (y (start options) + d * uy - 25 * uy - y (start options)))
        with ((d - 25) * (d - 25) * (ux * ux + uy * uy)) by ring.
      rewrite Hd. ring.
    + assert (Hne : start options <> end_ options)
        by (intros E; apply Ex; rewrite E; ring).
      apply dist_from_abs. simpl. unfold a.
      rewrite (cos_direction _ _ Hne), (sin_direction _ _ Hne).
      destruct (dir_reaches _ _ Hne) as [Hx Hy].
      pose proof (dir_unit _ _ Hne) as Hd.
      set (ux := dirx (start options) (end_ options)) in *.
      set (uy := diry (start options) (end_ options)) in *.
      set (d := dist (start options) (end_ options)) in *.
      rewrite Hx, Hy.
      replace ((x (start options) + d * ux - 25 * ux - x (start options)) *
               (x (start options) + d * ux - 25 * ux - x (start options)) +
               (y (start options) + d * uy - 25 * uy - y (start options)) *
               (y (start options) + d * uy - 25 * uy - y (start options)))
        with ((d - 25) * (d - 25) * (ux * ux + uy * uy)) by ring.
      rewrite Hd. ring.
  - cbn [x y]. lra.
  - cbn [x y]. lra.
  - apply dist_from_square; [lra |]. cbn [x y]. set (p := 25 / 1.75).
    transitivity (2 * p * (2 * p) * (cos a * cos a + sin a * sin a));
      [ring | rewrite Hu; ring].
  - unfold dist. cbn [x y]. f_equal. ring.
Qed.

(** X14: for a line whose two ends are the same point the angle is
    [Math.atan2(0, 0)] = 0, and the arrow is drawn as if the line came from
    the left: the shaft runs from the point to 25 units left of it, and the
    head has its base 25 units to the left, 25 / 1.75 above and below. *)
Theorem drawArrow_zero_length (options : Line) (ctx : Ctx) :
  start options = end_ options ->
  let p := end_ options in
  drawArrowWithCtx options ctx =
  (Returned tt,
   ctx ++ [ BeginPath;
            MoveTo (x p) (y p);
            LineTo (x p - 25) (y p);
            SetStrokeStyle (colorOr (color options));
            SetLineWidth (width options);
            Stroke;
            ClosePath;
            BeginPath;
            MoveTo (x p) (y p);
            LineTo (x p - 25) (y p + 25 / 1.75);
            LineTo (x p - 25) (y p - 25 / 1.75);
            SetFillStyle (colorOr (color options));
            Fill;
            ClosePath ]).
Proof.
  intros E p. rewrite drawArrow_trace. cbv zeta. rewrite E. fold p.
  rewrite !Rminus_diag, atan2_origin, cos_0, sin_0.
  rewrite !Rmult_1_r, !Rmult_0_r, !Rminus_0_r, !Rplus_0_r. reflexivity.
Qed.

(** [drawArrow_zero_length] on the line from (10,20) to (10,20). *)
Lemma drawArrow_zero_length_witness :
  exists trace,
    drawArrowWithCtx {| start := mkPoint 10 20; end_ := mkPoint 10 20;
                        color := None; width := 3 |} [] =
    (Returned tt, trace).
Proof.
  eexists.
  exact (drawArrow_zero_length {| start := mkPoint 10 20; end_ := mkPoint 10 20;
                                  color := None; width := 3 |} [] eq_refl).
Defined.

End ArrowShapeFacts.

(** ** [drawUTurnArrowWithCtx] *)

Section UTurnFacts.
Import Shapes Canvas Draw.

Lemma cos_quarter_before (a : R) : cos (PI / 2 + a) = - sin a.
Proof. rewrite Rplus_comm. apply cos_quarter. Qed.

Lemma sin_quarter_before (a : R) : sin (PI / 2 + a) = cos a.
Proof. rewrite Rplus_comm. apply sin_quarter. Qed.

Lemma cos_quarter_back (a : R) : cos (- PI / 2 + a) = sin a.
Proof.
  replace (- PI / 2 + a) with (a - PI / 2) by field.
  rewrite cos_minus, cos_PI2, sin_PI2. ring.
Qed.

Lemma sin_quarter_back (a : R) : sin (- PI / 2 + a) = - cos a.
Proof.
  replace (- PI / 2 + a) with (a - PI / 2) by field.
  rewrite sin_minus, cos_PI2, sin_PI2. ring.
Qed.

(** The calls of [drawUTurnArrowWithCtx], with the points the drawer
    computes. *)
Lemma drawUTurn_trace (options : UTurnArrow) (ctx : Ctx) :
  let c := center options in
  let a := angle options in
  let s := spacing options in
  let up := upDistance options in
  let down := downDistance options in
  let p := 22 / 1.75 in
  let longLegFrom := rotatePoint {| x := x c; y := y c - s |} c a in
  let longLegTo := rotatePoint {| x := x c + up; y := y c - s |} c a in
  let shortLegFrom := rotatePoint {| x := x c + up; y := y c + s |} c a in
  let shortLegTo := rotatePoint {| x := x c + up - down; y := y c + s |} c a in
  let arcCenter := rotatePoint {| x := x c + up; y := y c |} c a in
  let apex := rotatePoint {| x := x c + up - down - p; y := y c + s |} c a in
  let epiCenter := {| x := x shortLegTo + p * cos a; y := y shortLegTo + p * sin a |} in
  drawUTurnArrowWithCtx options ctx =
  (Returned tt,
   ctx ++ [ BeginPath;
            MoveTo (x apex) (y apex);
            LineTo (x epiCenter + p * cos (a + PI / 2)) (y epiCenter + p * sin (a + PI / 2));
            LineTo (x epiCenter - p * cos (a + PI / 2)) (y epiCenter - p * sin (a + PI / 2));
            SetFillStyle (colorOr (ucolor options));
            Fill;
            ClosePath;
            BeginPath;
            MoveTo (x longLegFrom) (y longLegFrom);
            LineTo (x longLegTo) (y longLegTo);
            SetStrokeStyle (colorOr (ucolor options));
            SetLineWidth (lineWidth options);
            Stroke;
            ClosePath;
            BeginPath;
            MoveTo (x shortLegFrom) (y shortLegFrom);
            LineTo (x shortLegTo) (y shortLegTo);
            SetStrokeStyle (colorOr (ucolor options));
            SetLineWidth (lineWidth options);
            Stroke;
            ClosePath;
            BeginPath;
            Arc (x arcCenter) (y arcCenter) s (PI / 2 + a) (- PI / 2 + a) true;
            SetStrokeStyle (colorOr (ucolor options));
            Stroke;
            ClosePath ]).
Proof.
  intros c a s up down p longLegFrom longLegTo shortLegFrom shortLegTo arcCenter apex
         epiCenter.
  unfold drawUTurnArrowWithCtx, drawLineWithCtx, drawTriangleWithCtx, bind, call.
  cbn [x y start end_ color width point1 point2 point3 tcolor].
  rewrite <- !app_assoc. reflexivity.
Qed.

(** X15: the two legs and the arc of the U-turn arrow ([rotatePoint] is
    modelled from the spec).  The long leg runs [upDistance] from its start
    in the direction [angle], the short leg runs [downDistance] back against
    it; both start [|spacing|] to the side of the axis through [center], on
    opposite sides; and the arc, centred between the two far ends, starts
    exactly at the start of the short leg and ends exactly at the end of the
    long leg. *)
Theorem drawUTurn_legs_and_arc (options : UTurnArrow) (ctx : Ctx) :
  let c := center options in
  let a := angle options in
  let s := spacing options in
  exists longLegFrom longLegTo shortLegFrom shortLegTo arcCenter rest,
    drawUTurnArrowWithCtx options ctx =
    (Returned tt,
     ctx ++ rest ++
         [ BeginPath;
           MoveTo (x longLegFrom) (y longLegFrom);
           LineTo (x longLegTo) (y longLegTo);
           SetStrokeStyle (colorOr (ucolor options));
           SetLineWidth (lineWidth options);
           Stroke;
           ClosePath;
           BeginPath;
           MoveTo (x shortLegFrom) (y shortLegFrom);
           LineTo (x shortLegTo) (y shortLegTo);
           SetStrokeStyle (colorOr (ucolor options));
           SetLineWidth (lineWidth options);
           Stroke;
           ClosePath;
           BeginPath;
           Arc (x arcCenter) (y arcCenter) s (PI / 2 + a) (- PI / 2 + a) true;
           SetStrokeStyle (colorOr (ucolor options));
           Stroke;
           ClosePath ]) /\
    List.length rest = 7%nat /\
    x longLegTo = x longLegFrom + upDistance options * cos a /\
    y longLegTo = y longLegFrom + upDistance options * sin a /\
    x shortLegTo = x shortLegFrom - downDistance options * cos a /\
    y shortLegTo = y shortLegFrom - downDistance options * sin a /\
    dist c longLegFrom = Rabs s /\
    x arcCenter = (x longLegTo + x shortLegFrom) / 2 /\
    y arcCenter = (y longLegTo + y shortLegFrom) / 2 /\
    x shortLegFrom = x arcCenter + s * cos (PI / 2 + a) /\
    y shortLegFrom = y arcCenter + s * sin (PI / 2 + a) /\
    x longLegTo = x arcCenter + s * cos (- PI / 2 + a) /\
    y longLegTo = y arcCenter + s * sin (- PI / 2 + a).
Proof.
  intros c a s.
  pose proof (drawUTurn_trace options ctx) as T. cbv zeta in T. fold c a s in T.
  match type of T with
  | _ = (_, _ ++ ?o1 :: ?o2 :: ?o3 :: ?o4 :: ?o5 :: ?o6 :: ?o7 :: ?tl) =>
      exists (rotatePoint {| x := x c; y := y c - s |} c a),
             (rotatePoint {| x := x c + upDistance options; y := y c - s |} c a),
             (rotatePoint {| x := x c + upDistance options; y := y c + s |} c a),
             (rotatePoint {| x := x c + upDistance options - downDistance options;
                             y := y c + s |} c a),
             (rotatePoint {| x := x c + upDistance options; y := y c |} c a),
             [o1; o2; o3; o4; o5; o6; o7]
  end.
  split; [exact T |]. split; [reflexivity |].
  rewrite cos_quarter_before, sin_quarter_before, cos_quarter_back, sin_quarter_back.
  unfold rotatePoint. cbn [x y].
  pose proof (cos_sin_unit a) as Hu.
  repeat split; try lra; try ring.
  apply dist_from_abs. cbn [x y].
  transitivity (s * s * (cos a * cos a + sin a * sin a)); [ring | rewrite Hu; ring].
Qed.

(** X16: the head of the U-turn arrow ([rotatePoint] is modelled from the
    spec).  Its apex is 22 / 1.75 further along the short leg than the leg's
    end; the middle of its base is 22 / 1.75
    before the leg's end, so the leg ends in the middle of the head; the
    base is 2 * 22 / 1.75 wide and the two sides are equally long. *)
Theorem drawUTurn_head (options : UTurnArrow) (ctx : Ctx) :
  let a := angle options in
  exists apex base1 base2 shortLegFrom shortLegTo before after,
    drawUTurnArrowWithCtx options ctx =
    (Returned tt,
     ctx ++ [ BeginPath;
              MoveTo (x apex) (y apex);
              LineTo (x base1) (y base1);
              LineTo (x base2) (y base2);
              SetFillStyle (colorOr (ucolor options));
              Fill;
              ClosePath ] ++
         before ++
         [ MoveTo (x shortLegFrom) (y shortLegFrom);
           LineTo (x shortLegTo) (y shortLegTo) ] ++
         after) /\
    List.length before = 8%nat /\
    List.length after = 9%nat /\
    x apex = x shortLegTo - 22 / 1.75 * cos a /\
    y apex = y shortLegTo - 22 / 1.75 * sin a /\
    (x base1 + x base2) / 2 = x shortLegTo + 22 / 1.75 * cos a /\
    (y base1 + y base2) / 2 = y shortLegTo + 22 / 1.75 * sin a /\
    dist base1 base2 = 2 * (22 / 1.75) /\
    dist apex base1 = dist apex base2.
Proof.
  intros a.
  pose proof (drawUTurn_trace options ctx) as T. cbv zeta in T. fold a in T.
  set (c := center options) in *. set (s := spacing options) in *.
  set (up := upDistance options) in *. set (down := downDistance options) in *.
  set (shortLegTo := rotatePoint {| x := x c + up - down; y := y c + s |} c a) in *.
  match type of T with
  | _ = (_, _ ++ ?o1 :: ?o2 :: ?o3 :: ?o4 :: ?o5 :: ?o6 :: ?o7 ::
                 ?b1 :: ?b2 :: ?b3 :: ?b4 :: ?b5 :: ?b6 :: ?b7 :: ?b8 ::
                 ?m1 :: ?m2 :: ?tl) =>
      exists (rotatePoint {| x := x c + up - down - 22 / 1.75; y := y c + s |} c a),
             {| x := x shortLegTo + 22 / 1.75 * cos a + 22 / 1.75 * cos (a + PI / 2);
                y := y shortLegTo + 22 / 1.75 * sin a + 22 / 1.75 * sin (a + PI / 2) |},
             {| x := x shortLegTo + 22 / 1.75 * cos a - 22 / 1.75 * cos (a + PI / 2);
                y := y shortLegTo + 22 / 1.75 * sin a - 22 / 1.75 * sin (a + PI / 2) |},
             (rotatePoint {| x := x c + up; y := y c + s |} c a),
             shortLegTo,
             [b1; b2; b3; b4; b5; b6; b7; b8],
             tl
  end.
  split; [exact T |]. split; [reflexivity |]. split; [reflexivity |].
  rewrite cos_quarter, sin_quarter.
  unfold shortLegTo, rotatePoint. cbn [x y].
  pose proof (cos_sin_unit a) as Hu. set (p := 22 / 1.75).
  split; [ring |]. split; [ring |]. split; [lra |]. split; [lra |]. split.
  - apply dist_from_square; [unfold p; lra |]. cbn [x y].
    transitivity (2 * p * (2 * p) * (cos a * cos a + sin a * sin a));
      [ring | rewrite Hu; ring].
  - unfold dist. cbn [x y]. f_equal. ring.
Qed.

End UTurnFacts.

(** ** [getEdgeSchematic]: the choice of the form, and what the straight
       form depends on *)

Section SchematicShapeFacts.
Import Shapes Schematics.

Variable nodes : list GNode.
Variable options : GraphOptions.

(** X17: when [getEdgeSchematic] has a result, it is the self-loop form for
    an edge from a label to the same label and the straight form for every
    other edge, whatever the positions of the nodes; the self-loop form is
    centred on the node, with spacing 12, 80 out and 25 back. *)
Theorem schematic_form_by_labels (getLargestAngularSpace : Point -> list Point -> R)
        (edge : GEdge) (edges : list GEdge) (schematic : Schematic) :
  getEdgeSchematic getLargestAngularSpace edge nodes edges options = Some schematic ->
  (from edge = to edge ->
   exists loop node,
     schematic = SelfLoop loop /\
     findByLabel (from edge) nodes 0 = Some node /\
     center loop = position (obj node) /\
     spacing loop = 12 /\ upDistance loop = 80 /\ downDistance loop = 25) /\
  (from edge <> to edge -> exists edgeLine, schematic = Straight edgeLine).
Proof.
  unfold getEdgeSchematic.
  destruct (getFromToNodes edge nodes) as [[fromN toN] |] eqn:H; [| discriminate].
  destruct (occupied fromN toN nodes edges) as [points |]; [| discriminate].
  pose proof (self_directing_iff _ _ _ _ H) as Hs.
  destruct (getFromToNodes_found _ _ _ _ H) as (Hf & _).
  destruct (same_object toN fromN) eqn:S; intros E; injection E as <-; split.
  - intros _. eexists. exists fromN. repeat split. exact Hf.
  - intros Hne. exfalso. apply Hne. apply Hs. reflexivity.
  - intros Heq. apply Hs in Heq. discriminate.
  - intros _. eexists. reflexivity.
Qed.

(** A point and another one, both moved sideways or both left, are as far
    apart as before. *)
Lemma dist_sideways (flag : bool) (angle : R) (p q : Point) :
  dist (sideways flag angle p) (sideways flag angle q) = dist p q.
Proof.
  destruct flag; [| reflexivity].
  unfold dist, sideways. cbn [x y]. f_equal. ring.
Qed.

Lemma not_same_object_by_labels (edge : GEdge) (fromN toN : NodeRef) :
  getFromToNodes edge nodes = Some (fromN, toN) ->
  from edge <> to edge -> same_object toN fromN = false.
Proof.
  intros H Hne. destruct (same_object toN fromN) eqn:S; [| reflexivity].
  apply (self_directing_iff _ _ _ _ H) in S. contradiction.
Qed.

(** X18: the straight form of an edge depends on the rest of the edge
    collection only through whether it holds the reverse pair: over two
    collections that both resolve and agree on that, and with any two
    implementations of [getLargestAngularSpace], the schematic is the
    same. *)
Theorem straight_form_reads_reverse_pair_only
        (las1 las2 : Point -> list Point -> R) (edge : GEdge) (edges1 edges2 : list GEdge) :
  from edge <> to edge ->
  getFromToNodes edge nodes <> None ->
  (forall e, In e edges1 -> getFromToNodes e nodes <> None) ->
  (forall e, In e edges2 -> getFromToNodes e nodes <> None) ->
  ((exists e, In e edges1 /\ from e = to edge /\ to e = from edge) <->
   (exists e, In e edges2 /\ from e = to edge /\ to e = from edge)) ->
  getEdgeSchematic las1 edge nodes edges1 options =
  getEdgeSchematic las2 edge nodes edges2 options.
Proof.
  intros Hne Hres I1 I2 Hrev.
  destruct (getFromToNodes edge nodes) as [[fromN toN] |] eqn:H; [| contradiction].
  pose proof (not_same_object_by_labels _ _ _ H Hne) as Hs.
  rewrite (getEdgeSchematic_straight las1 nodes edges1 options I1 edge fromN toN H Hs).
  rewrite (getEdgeSchematic_straight las2 nodes edges2 options I2 edge fromN toN H Hs).
  cbv zeta.
  assert (F : isBidirectional fromN toN edges1 = isBidirectional fromN toN edges2).
  { pose proof (isBidirectional_iff _ _ edges1 _ _ H) as B1.
    pose proof (isBidirectional_iff _ _ edges2 _ _ H) as B2.
    destruct (isBidirectional fromN toN edges1), (isBidirectional fromN toN edges2);
      try reflexivity.
    - symmetry. apply B2, Hrev, B1. reflexivity.
    - apply B1, Hrev, B2. reflexivity. }
  rewrite F. reflexivity.
Qed.

(** X19: for an edge between nodes at different positions the straight
    form's line is as long as the distance between the two centres is
    longer or shorter than [nodeSize(to) + 10], with or without a reverse
    edge. *)
Theorem straight_length (getLargestAngularSpace : Point -> list Point -> R)
        (edge : GEdge) (edges : list GEdge) (fromN toN : NodeRef) :
  (forall e, In e edges -> getFromToNodes e nodes <> None) ->
  getFromToNodes edge nodes = Some (fromN, toN) ->
  position (obj fromN) <> position (obj toN) ->
  exists edgeLine,
    getEdgeSchematic getLargestAngularSpace edge nodes edges options =
    Some (Straight edgeLine) /\
    dist (start edgeLine) (end_ edgeLine) =
    Rabs (dist (position (obj fromN)) (position (obj toN)) -
          (getValue (nodeSize options) (obj toN) + 10)).
Proof.
  intros I H Hne.
  pose proof (apart_not_same_object nodes edge fromN toN H Hne) as Hs.
  eexists. split;
    [apply (getEdgeSchematic_straight getLargestAngularSpace nodes edges options I
              edge fromN toN H Hs) |].
  cbv zeta. cbn [start end_]. rewrite dist_sideways.
  rewrite (cos_edgeAngle _ _ Hne), (sin_edgeAngle _ _ Hne).
  set (A := position (obj fromN)) in *. set (B := position (obj toN)) in *.
  set (r := getValue (nodeSize options) (obj toN) + 10).
  destruct (dir_reaches A B Hne) as [Hx Hy].
  pose proof (dir_unit A B Hne) as Hu.
  apply dist_from_abs. cbn [x y].
  change (nx (obj toN)) with (x B). change (ny (obj toN)) with (y B).
  set (ux := dirx A B) in *. set (uy := diry A B) in *. set (d := dist A B) in *.
  rewrite Hx, Hy.
  transitivity ((d - r) * (d - r) * (ux * ux + uy * uy)); [ring | rewrite Hu; ring].
Qed.

(** X20: with the reverse pair in the collection, [start] is exactly 12
    away from the source centre and [end] is exactly
    sqrt ((nodeSize(to) + 10)^2 + 12^2) away from the destination centre,
    for every position of the two nodes, also on one spot. *)
Theorem bidirectional_offsets (getLargestAngularSpace : Point -> list Point -> R)
        (edge : GEdge) (edges : list GEdge) (fromN toN : NodeRef) :
  (forall e, In e edges -> getFromToNodes e nodes <> None) ->
  getFromToNodes edge nodes = Some (fromN, toN) ->
  from edge <> to edge ->
  (exists e, In e edges /\ from e = to edge /\ to e = from edge) ->
  let r := getValue (nodeSize options) (obj toN) + 10 in
  exists edgeLine,
    getEdgeSchematic getLargestAngularSpace edge nodes edges options =
    Some (Straight edgeLine) /\
    dist (position (obj fromN)) (start edgeLine) = 12 /\
    dist (end_ edgeLine) (position (obj toN)) = sqrt (r * r + 12 * 12).
Proof.
  intros I H Hne Hrev r.
  pose proof (not_same_object_by_labels _ _ _ H Hne) as Hs.
  eexists. split;
    [apply (getEdgeSchematic_straight getLargestAngularSpace nodes edges options I
              edge fromN toN H Hs) |].
  cbv zeta. cbn [start end_].
  rewrite (proj2 (isBidirectional_iff _ _ _ _ _ H) Hrev).
  unfold sideways, lineSpacing. rewrite cos_quarter, sin_quarter.
  set (a := edgeAngle (obj fromN) (obj toN)).
  pose proof (cos_sin_unit a) as Hu. fold r. split.
  - apply dist_from_square; [lra |]. unfold position. cbn [x y].
    transitivity (12 * 12 * (cos a * cos a + sin a * sin a)); [ring | rewrite Hu; ring].
  - unfold dist, position. cbn [x y]. f_equal.
    transitivity ((r * r + 12 * 12) * (cos a * cos a + sin a * sin a));
      [ring | rewrite Hu; ring].
Qed.

End SchematicShapeFacts.

Section SchematicShapeSample.
Import Shapes Schematics Sample.

Lemma single_edge_sample :
  getEdgeSchematic largestAngularSpaceOfSpec edgeAB [nodeA; nodeB] [edgeAB] options35 =
  Some (Straight {| start := {| x := 0; y := 0 |};
                    end_ := {| x := 55; y := 0 |};
                    color := Some "black"%string;
                    width := 10 |}).
Proof.
  rewrite (getEdgeSchematic_straight largestAngularSpaceOfSpec [nodeA; nodeB] [edgeAB]
             options35 integrity_one edgeAB (mkNodeRef 0 nodeA) (mkNodeRef 1 nodeB)
             eq_refl eq_refl).
  change (isBidirectional (mkNodeRef 0 nodeA) (mkNodeRef 1 nodeB) [edgeAB]) with false.
  cbn [obj sideways]. rewrite edgeAngle_A_B, cos_0, sin_0.
  unfold options35, nodeA, nodeB, position.
  cbn [getValue nodeSize edgeColor edgeWidth nx ny].
  do 2 f_equal. f_equal. f_equal; ring.
Qed.

(** [schematic_form_by_labels] on the single edge from A to B. *)
Lemma schematic_form_witness :
  exists edgeLine,
    Straight {| start := {| x := 0; y := 0 |};
                end_ := {| x := 55; y := 0 |};
                color := Some "black"%string;
                width := 10 |} = Straight edgeLine.
Proof.
  apply (schematic_form_by_labels [nodeA; nodeB] options35 largestAngularSpaceOfSpec
           edgeAB [edgeAB] _ single_edge_sample).
  discriminate.
Defined.

End SchematicShapeSample.

Section SchematicShapeWitnesses.
Import Shapes Schematics Sample.

Lemma integrity_twice :
  forall e, In e [edgeAB; edgeAB] -> getFromToNodes e [nodeA; nodeB] <> None.
Proof. intros e [<- | [<- | []]]; discriminate. Qed.

(** [straight_form_reads_reverse_pair_only]: a second copy of the edge
    changes nothing. *)
Lemma straight_form_witness :
  getEdgeSchematic largestAngularSpaceOfSpec edgeAB [nodeA; nodeB] [edgeAB] options35 =
  getEdgeSchematic (fun _ _ => 0) edgeAB [nodeA; nodeB] [edgeAB; edgeAB] options35.
Proof.
  apply (straight_form_reads_reverse_pair_only [nodeA; nodeB] options35).
  - discriminate.
  - discriminate.
  - exact integrity_one.
  - exact integrity_twice.
  - split.
    + intros (e & [<- | []] & Hf & _). discriminate Hf.
    + intros (e & [<- | [<- | []]] & Hf & _); discriminate Hf.
Defined.

(** [straight_length] on the single edge from A to B. *)
Lemma straight_length_witness :
  exists edgeLine,
    getEdgeSchematic largestAngularSpaceOfSpec edgeAB [nodeA; nodeB] [edgeAB] options35 =
    Some (Straight edgeLine) /\
    dist (start edgeLine) (end_ edgeLine) =
    Rabs (dist (position nodeA) (position nodeB) - (35 + 10)).
Proof.
  exact (straight_length [nodeA; nodeB] options35 largestAngularSpaceOfSpec edgeAB [edgeAB]
           (mkNodeRef 0 nodeA) (mkNodeRef 1 nodeB) integrity_one eq_refl positions_A_B).
Defined.

(** [bidirectional_offsets] on the pair of edges between A and B. *)
Lemma bidirectional_offsets_witness :
  exists edgeLine,
    getEdgeSchematic largestAngularSpaceOfSpec edgeAB [nodeA; nodeB] [edgeAB; edgeBA]
                     options35 = Some (Straight edgeLine) /\
    dist (position nodeA) (start edgeLine) = 12 /\
    dist (end_ edgeLine) (position nodeB) = sqrt ((35 + 10) * (35 + 10) + 12 * 12).
Proof.
  apply (bidirectional_offsets [nodeA; nodeB] options35 largestAngularSpaceOfSpec edgeAB
           [edgeAB; edgeBA] (mkNodeRef 0 nodeA) (mkNodeRef 1 nodeB) integrity_pair eq_refl).
  - discriminate.
  - exists edgeBA. split; [right; left; reflexivity | split; reflexivity].
Defined.

End SchematicShapeWitnesses.

(** ** [getEdgeSchematic]: the occupied directions of a self-loop *)

Section OccupiedFacts.
Import Shapes Schematics.

Variable nodes : list GNode.

Lemma mapOrFail_each {A B} (f : A -> option B) (l : list A) (bs : list B) :
  mapOrFail f l = Some bs -> Forall2 (fun a b => f a = Some b) l bs.
Proof.
  revert bs. induction l as [| a l IH]; intros bs H; simpl in H.
  - injection H as <-. constructor.
  - destruct (f a) as [b |] eqn:E; [| discriminate].
    destruct (mapOrFail f l) as [bs' |]; [| discriminate].
    injection H as <-. constructor; [exact E | apply IH; reflexivity].
Qed.

Lemma findByLabel_in (l : string) (k : nat) (r : NodeRef) :
  findByLabel l nodes k = Some r -> In (obj r) nodes.
Proof.
  intros H. destruct (findByLabel_found _ _ _ _ H) as (_ & _ & N).
  exact (nth_error_In _ _ N).
Qed.

(** X21: when nodes with the same id carry the same label, the points
    handed to [getLargestAngularSpace] for a self-loop on a node are, edge
    by edge over the edges that leave or enter the node and are no
    self-loops, the positions of the node at the other end of the edge. *)
Theorem occupied_are_other_ends (edge : GEdge) (edges : list GEdge)
        (fromN toN : NodeRef) (points : list Point) :
  (forall a b, In a nodes -> In b nodes -> id a = id b -> label a = label b) ->
  getFromToNodes edge nodes = Some (fromN, toN) ->
  from edge = to edge ->
  occupied fromN toN nodes edges = Some points ->
  Forall2
    (fun e p =>
       exists other,
         findByLabel (if String.eqb (from e) (from edge) then to e else from e) nodes 0 =
         Some other /\
         p = position (obj other))
    (filter (fun e => (String.eqb (from e) (from edge) || String.eqb (to e) (from edge))
                      && negb (String.eqb (from e) (to e))) edges)
    points.
Proof.
  intros Hid H Hloop Hocc.
  destruct (getFromToNodes_found _ _ _ _ H) as (Hf & Ht & Lf & Lt).
  unfold occupied in Hocc. rewrite Lf, Lt, <- Hloop in Hocc.
  apply mapOrFail_each in Hocc.
  induction Hocc as [| e p es ps He _ IH]; constructor; [| exact IH].
  destruct (getFromToNodes e nodes) as [[fromNode toNode] |] eqn:G; [| discriminate].
  destruct (getFromToNodes_found _ _ _ _ G) as (Gf & Gt & Kf & _).
  injection He as <-.
  destruct (String.eqb_spec (from e) (from edge)) as [E | E].
  - exists toNode. split; [exact Gt |].
    rewrite E, Hf in Gf. injection Gf as <-. rewrite Z.eqb_refl. reflexivity.
  - exists fromNode. split; [exact Gf |].
    destruct (Z.eqb_spec (id (obj fromN)) (id (obj fromNode))) as [I | I]; [| reflexivity].
    exfalso. apply E.
    rewrite <- Kf, <- Lf. symmetry.
    apply Hid; [exact (findByLabel_in _ _ _ Hf) | exact (findByLabel_in _ _ _ Gf) | exact I].
Qed.

End OccupiedFacts.

Section OccupiedSample.
Import Shapes Schematics Sample.

(** [occupied_are_other_ends] on the self-loop of A, with the edge to C. *)
Lemma occupied_witness :
  Forall2
    (fun e p =>
       exists other,
         findByLabel (if String.eqb (from e) (from edgeAA) then to e else from e)
                     [nodeA; nodeC] 0 = Some other /\
         p = position (obj other))
    (filter (fun e => (String.eqb (from e) (from edgeAA) || String.eqb (to e) (from edgeAA))
                      && negb (String.eqb (from e) (to e))) [edgeAA; edgeAC])
    [position nodeC].
Proof.
  apply (occupied_are_other_ends [nodeA; nodeC] edgeAA [edgeAA; edgeAC]
           (mkNodeRef 0 nodeA) (mkNodeRef 0 nodeA) [position nodeC]).
  - intros a b [<- | [<- | []]] [<- | [<- | []]] E;
      try reflexivity; simpl in E; discriminate E.
  - reflexivity.
  - reflexivity.
  - reflexivity.
Defined.

(** Two nodes with the id 1: for the edge from D into A the point taken is
    the position of A itself, not of D. *)
Example occupied_with_repeated_id :
  occupied (mkNodeRef 0 nodeA) (mkNodeRef 0 nodeA)
           [nodeA; {| id := 1; label := "D"; nx := 50; ny := 0 |}]
           [edgeAA; {| from := "D"; to := "A" |}] =
  Some [position nodeA].
Proof. reflexivity. Qed.

End OccupiedSample.
